(** * Chunking and incremental indexing of the investor RAG index

    A shallow embedding of [web/scripts/chunk.ts] (sentence splitting,
    chunk assembly, overlap and merge passes) and of the per-row pipeline
    of [web/scripts/build-index.ts] (RAGIndexer.processRow and the batch
    loop of RAGIndexer.processTable).

    Conventions of the embedding:
    - a JavaScript string is the list of its UTF-16 code units ([list N]);
      [.length] is the length of that list;
    - the size parameters of the chunker are TypeScript [number]s that the
      callers instantiate with integers; they are modelled by [Z];
    - asynchronous calls are sequential in the source (every call is
      awaited), so they are modelled by plain state passing. *)

From Stdlib Require Import ZArith NArith List String Ascii Bool Lia.
From stdpp Require Import base option list gmap.
From Stdlib Require Import DecimalString.
Import ListNotations.

Local Open Scope Z_scope.

(** ** JavaScript strings *)

Abbreviation str := (list N).

(** A string literal of the source, as code units (ASCII literals only). *)
Definition js (s : string) : str :=
  List.map N_of_ascii (list_ascii_of_string s).

Definition len (s : str) : Z := Z.of_nat (length s).

(** JavaScript truthiness of a string: non-empty. *)
Definition truthy (s : str) : bool :=
  match s with [] => false | _ :: _ => true end.

Definition space : str := [32%N].

(** The class [\s] of a JavaScript regular expression, which is also the
    set of code units removed by [String.prototype.trim]: WhiteSpace and
    LineTerminator of ECMAScript. *)
Definition isSpace (c : N) : bool :=
  ((9 <=? c) && (c <=? 13) || (c =? 32) || (c =? 160) || (c =? 5760)
   || (8192 <=? c) && (c <=? 8202) || (c =? 8232) || (c =? 8233)
   || (c =? 8239) || (c =? 8287) || (c =? 12288) || (c =? 65279))%N.

(** The class [[.!?]]. *)
Definition isSentenceEnd (c : N) : bool :=
  ((c =? 46) || (c =? 33) || (c =? 63))%N.

Fixpoint trimStart (s : str) : str :=
  match s with
  | [] => []
  | c :: s' => if isSpace c then trimStart s' else s
  end.

Definition trimEnd (s : str) : str := rev (trimStart (rev s)).

(** [s.trim()] *)
Definition trim (s : str) : str := trimEnd (trimStart s).

(** [parts.join(sep)] *)
Fixpoint join (sep : str) (parts : list str) : str :=
  match parts with
  | [] => []
  | [p] => p
  | p :: (_ :: _) as rest => p ++ sep ++ join sep rest
  end.

(** All the parts but the first one of a [join]: each with the separator
    in front. *)
Definition joinTail (sep : str) (parts : list str) : str :=
  List.concat (List.map (app sep) parts).

(** [s.split(/\s+/)]: the scan of String.prototype.split with a separator
    that matches a maximal run of white space.  [inRun] tells that the
    previous code unit belonged to a separator, [cur] is the piece being
    read, in reverse. *)
Fixpoint splitSpacesFrom (inRun : bool) (cur : str) (s : str) : list str :=
  match s with
  | [] => [rev cur]
  | c :: s' =>
      if isSpace c then
        if inRun then splitSpacesFrom true cur s'
        else rev cur :: splitSpacesFrom true [] s'
      else splitSpacesFrom false (c :: cur) s'
  end.

Definition splitSpaces (s : str) : list str := splitSpacesFrom false [] s.

(** [text.split(/(?<=[.!?])\s+/)]: a separator is a maximal run of white
    space that starts right after one of [.], [!], [?].  [afterEnd] tells
    that the previous code unit is a sentence end. *)
Fixpoint splitSentencesFrom (afterEnd inRun : bool) (cur : str) (s : str)
  : list str :=
  match s with
  | [] => [rev cur]
  | c :: s' =>
      if isSpace c then
        if inRun then splitSentencesFrom false true cur s'
        else if afterEnd then rev cur :: splitSentencesFrom false true [] s'
        else splitSentencesFrom false false (c :: cur) s'
      else splitSentencesFrom (isSentenceEnd c) false (c :: cur) s'
  end.

(** chunk.ts, splitIntoSentences *)
Definition splitIntoSentences (text : str) : list str :=
  List.filter (fun s => (0 <? length s)%nat)
    (List.map trim (splitSentencesFrom false false [] text)).

(** chunk.ts, getOverlapText *)
Definition getOverlapText (previousChunk : str) (overlapSize : Z) : str :=
  if negb (truthy previousChunk) || (overlapSize <=? 0) then []
  else
    let words := splitSpaces previousChunk in
    if Z.of_nat (length words) <=? overlapSize then previousChunk
    else join space (skipn (length words - Z.to_nat overlapSize) words).

(** chunk.ts, mergeSmallChunks: one turn of the [for] loop, on the pair
    of the mutable [merged] array and [currentChunk]. *)
Definition mergeStep (minSize : Z) (st : list str * str) (nextChunk : str)
  : list str * str :=
  let '(merged, currentChunk) := st in
  let combinedLength := len currentChunk + len nextChunk in
  if combinedLength <? minSize then
    (merged, currentChunk ++ space ++ nextChunk)
  else
    (merged ++ [currentChunk], nextChunk).

Definition mergeSmallChunks (chunks : list str) (minSize : Z) : list str :=
  match chunks with
  | [] => chunks
  | first :: rest =>
      let '(merged, currentChunk) :=
        fold_left (mergeStep minSize) rest ([], first) in
      merged ++ [currentChunk]
  end.

(** chunk.ts, chunkText: one turn of the inner loop over [words]. *)
Definition wordStep (minSize maxSize : Z) (st : list str * str) (word : str)
  : list str * str :=
  let '(chunks, tempChunk) := st in
  let appended := (if truthy tempChunk then tempChunk ++ space else []) ++ word in
  if len (tempChunk ++ space ++ word) <=? maxSize then (chunks, appended)
  else if len tempChunk >=? minSize then (chunks ++ [tempChunk], word)
  else (chunks, appended).

(** chunkText: the first half of one turn of the loop over the sentences
    (the [if (potentialChunk.length <= targetSize)] statement), on the
    pair of [chunks] and [currentChunk].  [previousChunk] is only ever
    assigned in the source; it is left out. *)
Definition appendSentence (targetSize minSize : Z)
    (st : list str * str) (sentence : str) : list str * str :=
  let '(chunks, currentChunk) := st in
  let potentialChunk :=
    currentChunk ++ (if truthy currentChunk then space else []) ++ sentence in
  if len potentialChunk <=? targetSize then (chunks, potentialChunk)
  else if len currentChunk >=? minSize then (chunks ++ [currentChunk], sentence)
  else (chunks, potentialChunk).

(** chunkText: one turn of the loop over the sentences; after the append
    comes the [if (currentChunk.length > maxSize)] statement. *)
Definition sentenceStep (targetSize minSize maxSize : Z)
    (st : list str * str) (sentence : str) : list str * str :=
  let '(chunks, currentChunk) := appendSentence targetSize minSize st sentence in
  if len currentChunk >? maxSize then
    if len currentChunk >=? minSize then (chunks ++ [currentChunk], sentence)
    else fold_left (wordStep minSize maxSize) (splitSpaces currentChunk) (chunks, [])
  else (chunks, currentChunk).

(** chunkText: the flush after the loop.  The source updates the last
    element of [chunks] in place. *)
Definition flushRemaining (minSize : Z) (chunks : list str) (currentChunk : str)
  : list str :=
  if len currentChunk >=? minSize then chunks ++ [currentChunk]
  else if (0 <? length chunks)%nat then
    alter (fun last => last ++ space ++ currentChunk) (length chunks - 1)%nat chunks
  else chunks ++ [currentChunk].

(** chunkText: the chunk pushed on [chunksWithOverlap] at index [i]. *)
Definition withOverlap (overlap : Z) (chunks : list str) (i : nat) : str :=
  let chunk := nth i chunks [] in
  if (0 <? i)%nat && (overlap >? 0) then
    let overlapText := getOverlapText (nth (i - 1) chunks []) overlap in
    if truthy overlapText then overlapText ++ space ++ chunk else chunk
  else chunk.

Definition addOverlap (overlap : Z) (chunks : list str) : list str :=
  List.map (withOverlap overlap chunks) (seq 0 (length chunks)).

(** chunk.ts, chunkText *)
Definition chunkText (text : str) (targetSize overlap minSize maxSize : Z)
  : list str :=
  if len text <=? targetSize then [text]
  else
    let sentences := splitIntoSentences text in
    let '(chunks, currentChunk) :=
      fold_left (sentenceStep targetSize minSize maxSize) sentences ([], []) in
    let chunks := flushRemaining minSize chunks currentChunk in
    mergeSmallChunks (addOverlap overlap chunks) minSize.

(** ** The indexing pipeline (build-index.ts) *)

(** Outcome of a call that may throw.  The thrown value itself is only
    ever printed by the source, so it is not represented. *)
Inductive result (A : Type) : Type :=
| Ok (a : A)
| Throw.
Arguments Ok {A} a.
Arguments Throw {A}.

(** [IndexingOptions.reembed]; the command line rejects any other value. *)
Inductive ReembedMode : Type := ReembedNone | ReembedMissing | ReembedAll.

(** tables.ts, SourceDocument *)
Record SourceDocument : Type := {
  source_table : str;
  source_id : str;
  title : option str;
  content : str
}.

(** supabase.ts, Chunk (the time stamps are never read by the indexer).
    [vector] stands for [number[]]: the indexer stores and forwards
    embeddings without looking inside. *)
Record Chunk (vector : Type) : Type := {
  chunk_id : str;
  document_id : str;
  chunk_index : nat;
  chunk_content : str;
  embedding : option vector
}.
Arguments chunk_id {vector} _.
Arguments document_id {vector} _.
Arguments chunk_index {vector} _.
Arguments chunk_content {vector} _.
Arguments embedding {vector} _.

(** build-index.ts, IndexingStats *)
Record IndexingStats : Type := {
  documentsProcessed : nat;
  chunksCreated : nat;
  embeddingsWritten : nat;
  errors : nat
}.

(** The external collaborators of the indexer: the table mappers
    (tables.ts, on rows of type [any]), the digest (SHA-256 of node's
    crypto module), the operations of the document and chunk store
    ([ragTables] of supabase.ts, which throw on every error that the
    database client reports) and the embedding provider (lib/openai.ts).
    [world] is the state of the outside services; every call may change
    it and may throw. *)
Class Backend (vector row world : Type) : Type := {
  transformRowToDocument : str -> row -> result SourceDocument;
  generateContentHash : str -> str;
  getDocumentHash : str -> str -> world -> result (option str) * world;
  upsertDocument : SourceDocument -> str -> world -> result str * world;
  getChunk : str -> nat -> world -> result (option (Chunk vector)) * world;
  upsertChunk : str -> nat -> str -> option vector -> world -> result str * world;
  embed : str -> world -> result vector * world
}.

(** What the indexer does to the outside, in order: the calls it makes
    and the two messages it prints on a failure. *)
Inductive event (vector : Type) : Type :=
| EvGetDocumentHash (sourceTable sourceId : str)
| EvUpsertDocument (doc : SourceDocument) (contentHash : str)
| EvGetChunk (documentId : str) (chunkIndex : nat)
| EvEmbed (text : str)
| EvUpsertChunk (documentId : str) (chunkIndex : nat) (chunkContent : str)
    (chunkEmbedding : option vector)
| EvEmbeddingFailed (chunkIndex : nat)
| EvRowFailed.
Arguments EvGetDocumentHash {vector} _ _.
Arguments EvUpsertDocument {vector} _ _.
Arguments EvGetChunk {vector} _ _.
Arguments EvEmbed {vector} _.
Arguments EvUpsertChunk {vector} _ _ _ _.
Arguments EvEmbeddingFailed {vector} _.
Arguments EvRowFailed {vector}.

(** The state threaded through a run: the outside world, the statistics
    object of the table being processed (shared by reference in the
    source) and the trace of events. *)
Record state (vector world : Type) : Type := {
  ext : world;
  stats : IndexingStats;
  events : list (event vector)
}.
Arguments ext {vector world} _.
Arguments stats {vector world} _.
Arguments events {vector world} _.
Arguments Build_state {vector world} _ _ _.

Definition isUpsertChunk {vector} (e : event vector) : bool :=
  match e with EvUpsertChunk _ _ _ _ => true | _ => false end.

Definition isUpsertDocument {vector} (e : event vector) : bool :=
  match e with EvUpsertDocument _ _ => true | _ => false end.

Definition isEmbed {vector} (e : event vector) : bool :=
  match e with EvEmbed _ => true | _ => false end.

(** The writes and provider calls of a trace. *)
Definition isWriteOrEmbed {vector} (e : event vector) : bool :=
  isUpsertDocument e || isUpsertChunk e || isEmbed e.

Section Indexer.

Context {vector row world : Type} {B : Backend vector row world}.

(** Computations of the indexer: state passing with exceptions. *)
Definition M (A : Type) : Type :=
  state vector world -> result A * state vector world.

Definition ret {A} (a : A) : M A := fun s => (Ok a, s).

Definition bind {A C} (m : M A) (k : A -> M C) : M C :=
  fun s =>
    match m s with
    | (Ok a, s') => k a s'
    | (Throw, s') => (Throw, s')
    end.

(** [try { body } catch (error) { handler }] *)
Definition tryCatch {A} (body handler : M A) : M A :=
  fun s =>
    match body s with
    | (Ok a, s') => (Ok a, s')
    | (Throw, s') => handler s'
    end.

Notation "x <- m ;; k" := (bind m (fun x => k))
  (at level 100, m at next level, right associativity).
Notation "m ;;; k" := (bind m (fun _ => k))
  (at level 100, right associativity).

(** A pure call that may throw. *)
Definition lift {A} (r : result A) : M A := fun s => (r, s).

(** An awaited call to an outside service. *)
Definition call {A} (e : event vector) (op : world -> result A * world) : M A :=
  fun s =>
    let '(r, w) := op (ext s) in
    (r, Build_state w (stats s) (events s ++ [e])).

(** [console.error(...)] *)
Definition report (e : event vector) : M unit :=
  fun s => (Ok tt, Build_state (ext s) (stats s) (events s ++ [e])).

Definition updateStats (f : IndexingStats -> IndexingStats) : M unit :=
  fun s => (Ok tt, Build_state (ext s) (f (stats s)) (events s)).

Definition incDocumentsProcessed (t : IndexingStats) : IndexingStats :=
  {| documentsProcessed := S (documentsProcessed t);
     chunksCreated := chunksCreated t;
     embeddingsWritten := embeddingsWritten t;
     errors := errors t |}.

Definition incChunksCreated (t : IndexingStats) : IndexingStats :=
  {| documentsProcessed := documentsProcessed t;
     chunksCreated := S (chunksCreated t);
     embeddingsWritten := embeddingsWritten t;
     errors := errors t |}.

Definition incEmbeddingsWritten (t : IndexingStats) : IndexingStats :=
  {| documentsProcessed := documentsProcessed t;
     chunksCreated := chunksCreated t;
     embeddingsWritten := S (embeddingsWritten t);
     errors := errors t |}.

Definition incErrors (t : IndexingStats) : IndexingStats :=
  {| documentsProcessed := documentsProcessed t;
     chunksCreated := chunksCreated t;
     embeddingsWritten := embeddingsWritten t;
     errors := S (errors t) |}.

(** [existingChunk?.embedding]: absent when there is no chunk or when its
    embedding is null; an array is truthy whatever it holds. *)
Definition storedEmbedding (existingChunk : option (Chunk vector)) : option vector :=
  match existingChunk with
  | Some c => embedding c
  | None => None
  end.

(** processRow: the condition of the [if] that guards the provider call,
    [reembed === 'all' || reembed === 'missing' || !existingChunk?.embedding]. *)
Definition shouldEmbed (reembed : ReembedMode) (existingChunk : option (Chunk vector))
  : bool :=
  match reembed with ReembedAll => true | _ => false end
  || match reembed with ReembedMissing => true | _ => false end
  || negb (bool_decide (is_Some (storedEmbedding existingChunk))).

(** processRow: the embedding given to the upsert of one chunk, that is
    the [if]/[else if] on the re-embedding mode with its inner [try]. *)
Definition resolveEmbedding (reembed : ReembedMode) (chunkIndex : nat)
    (chunkContent : str) (existingChunk : option (Chunk vector))
  : M (option vector) :=
  if shouldEmbed reembed existingChunk then
    tryCatch
      (v <- call (EvEmbed chunkContent) (embed chunkContent) ;;
       updateStats incEmbeddingsWritten ;;;
       ret (Some v))
      (report (EvEmbeddingFailed chunkIndex) ;;;
       ret None)
  else
    match storedEmbedding existingChunk with
    | Some v => ret (Some v)
    | None => ret None
    end.

(** processRow: the body of the loop over the chunks. *)
Definition processChunk (reembed : ReembedMode) (documentId : str)
    (chunkIndex : nat) (chunkContent : str) : M unit :=
  existingChunk <- call (EvGetChunk documentId chunkIndex)
                        (getChunk documentId chunkIndex) ;;
  chunkEmbedding <- resolveEmbedding reembed chunkIndex chunkContent existingChunk ;;
  call (EvUpsertChunk documentId chunkIndex chunkContent chunkEmbedding)
       (upsertChunk documentId chunkIndex chunkContent chunkEmbedding) ;;;
  updateStats incChunksCreated.

(** processRow: the loop over [chunks], from index [chunkIndex] on. *)
Fixpoint processChunks (reembed : ReembedMode) (documentId : str)
    (chunkIndex : nat) (chunks : list str) : M unit :=
  match chunks with
  | [] => ret tt
  | chunkContent :: rest =>
      processChunk reembed documentId chunkIndex chunkContent ;;;
      processChunks reembed documentId (S chunkIndex) rest
  end.

(** RAGIndexer.processRow *)
Definition processRow (reembed : ReembedMode) (tableName : str) (r : row) : M unit :=
  sourceDoc <- lift (transformRowToDocument tableName r) ;;
  if negb (truthy (content sourceDoc))
     || (length (trim (content sourceDoc)) =? 0)%nat
  then ret tt
  else
    let contentHash := generateContentHash (content sourceDoc) in
    existingHash <- call (EvGetDocumentHash (source_table sourceDoc) (source_id sourceDoc))
                         (getDocumentHash (source_table sourceDoc) (source_id sourceDoc)) ;;
    if bool_decide (existingHash = Some contentHash)
       && match reembed with ReembedNone => true | _ => false end
    then ret tt
    else
      documentId <- call (EvUpsertDocument sourceDoc contentHash)
                         (upsertDocument sourceDoc contentHash) ;;
      updateStats incDocumentsProcessed ;;;
      let chunks := chunkText (content sourceDoc) 1200 200 800 1500 in
      processChunks reembed documentId 0 chunks.

(** RAGIndexer.processTable: the loop over the rows of one fetched batch,
    each row in its own [try]. *)
Fixpoint processBatch (reembed : ReembedMode) (tableName : str) (rows : list row)
  : M unit :=
  match rows with
  | [] => ret tt
  | r :: rest =>
      tryCatch (processRow reembed tableName r)
               (report EvRowFailed ;;; updateStats incErrors) ;;;
      processBatch reembed tableName rest
  end.

(** Computations that leave the error counter alone. *)
Definition keepsErrors {A} (m : M A) : Prop :=
  forall s, errors (stats (snd (m s))) = errors (stats s).

(** A store whose chunk reads and chunk writes never throw. *)
Definition reliableStore : Prop :=
  (forall documentId chunkIndex w,
     exists existing w', getChunk documentId chunkIndex w = (Ok existing, w')) /\
  (forall documentId chunkIndex chunkContent chunkEmbedding w,
     exists id w',
       upsertChunk documentId chunkIndex chunkContent chunkEmbedding w = (Ok id, w')).

End Indexer.

(** Reading a trace: the index of every chunk upsert, with whether an
    embedding was written, and the indices of the reported provider
    failures. *)
Definition upsertedChunks {vector} (evs : list (event vector)) : list (nat * bool) :=
  flat_map (fun e =>
    match e with
    | EvUpsertChunk _ i _ (Some _) => [(i, true)]
    | EvUpsertChunk _ i _ None => [(i, false)]
    | _ => []
    end) evs.

Definition failedEmbeddings {vector} (evs : list (event vector)) : list nat :=
  flat_map (fun e =>
    match e with
    | EvEmbeddingFailed i => [i]
    | _ => []
    end) evs.

(** ** An in-memory backend

    A stand-in for the store and the provider, to run the indexer on
    examples: documents and chunks are kept in finite maps, a row is
    either a document or a row on which the mapper throws, the embedding
    provider throws on the texts chosen by [rejects], and the identity
    stands in for the digest (equal digests exactly for equal texts). *)
Module Memory.

Definition vector : Type := list Z.

Definition row : Type := option SourceDocument.

Record world : Type := {
  docs : gmap (str * str) str;
  chunks : gmap (str * nat) (Chunk vector)
}.

Definition empty : world := {| docs := ∅; chunks := ∅ |}.

Definition documentIdOf (doc : SourceDocument) : str :=
  source_table doc ++ js "/" ++ source_id doc.

Definition transformRow (tableName : str) (r : row) : result SourceDocument :=
  match r with
  | Some doc => Ok doc
  | None => Throw
  end.

Definition readHash (sourceTable sourceId : str) (w : world)
  : result (option str) * world :=
  (Ok (docs w !! (sourceTable, sourceId)), w).

Definition writeDocument (doc : SourceDocument) (contentHash : str) (w : world)
  : result str * world :=
  (Ok (documentIdOf doc),
   {| docs := <[(source_table doc, source_id doc) := contentHash]> (docs w);
      chunks := chunks w |}).

Definition readChunk (documentId : str) (chunkIndex : nat) (w : world)
  : result (option (Chunk vector)) * world :=
  (Ok (chunks w !! (documentId, chunkIndex)), w).

Definition writeChunk (documentId : str) (chunkIndex : nat) (chunkContent : str)
    (chunkEmbedding : option vector) (w : world) : result str * world :=
  (Ok documentId,
   {| docs := docs w;
      chunks := <[(documentId, chunkIndex) :=
                   {| chunk_id := documentId;
                      document_id := documentId;
                      chunk_index := chunkIndex;
                      chunk_content := chunkContent;
                      embedding := chunkEmbedding |}]> (chunks w) |}).

Definition provider (rejects : str -> bool) (text : str) (w : world)
  : result vector * world :=
  if rejects text then (Throw, w) else (Ok [len text], w).

Definition backend (rejects : str -> bool) : Backend vector row world :=
  {| transformRowToDocument := transformRow;
     generateContentHash := fun text => text;
     getDocumentHash := readHash;
     upsertDocument := writeDocument;
     getChunk := readChunk;
     upsertChunk := writeChunk;
     embed := provider rejects |}.

(** The same with a store that throws on the chunk writes chosen by
    [refuses]. *)
Definition writeChunkUnless (refuses : str -> nat -> bool) (documentId : str)
    (chunkIndex : nat) (chunkContent : str) (chunkEmbedding : option vector)
    (w : world) : result str * world :=
  if refuses documentId chunkIndex then (Throw, w)
  else writeChunk documentId chunkIndex chunkContent chunkEmbedding w.

Definition refusingBackend (rejects : str -> bool) (refuses : str -> nat -> bool)
  : Backend vector row world :=
  {| transformRowToDocument := transformRow;
     generateContentHash := fun text => text;
     getDocumentHash := readHash;
     upsertDocument := writeDocument;
     getChunk := readChunk;
     upsertChunk := writeChunkUnless refuses;
     embed := provider rejects |}.

Definition noStats : IndexingStats :=
  {| documentsProcessed := 0; chunksCreated := 0;
     embeddingsWritten := 0; errors := 0 |}.

(** A fresh run on the store [w]. *)
Definition start (w : world) : state vector world := Build_state w noStats [].

(** A sentence of 1000 code units, 999 times a letter and a full stop,
    and the text of five of them, on the letters [a] to [e]. *)
Definition sentenceOf (letter : N) : str := repeat letter 999 ++ js ".".

Definition fiveSentences : str :=
  join space (List.map sentenceOf [97; 98; 99; 100; 101]%N).

Definition pressRelease (text : str) : SourceDocument :=
  {| source_table := js "press_release";
     source_id := js "7";
     title := Some (js "Results");
     content := text |}.

(** A provider that throws on the texts that start with the letter [b]. *)
Definition rejectsB (text : str) : bool :=
  match text with
  | c :: _ => (c =? 98)%N
  | [] => false
  end.

Definition acceptsAll (text : str) : bool := false.

Definition doc7 : str := js "press_release/7".

(** A store that holds chunk 0 of [doc7] with the embedding [stored]. *)
Definition seeded (stored : option vector) : state vector world :=
  start (snd (writeChunk doc7 0 (js "Old text.") stored empty)).

Definition note : SourceDocument :=
  pressRelease (js "Ateliere Connect is a cloud media supply chain.").

Definition memo : SourceDocument :=
  {| source_table := js "press_release";
     source_id := js "8";
     title := None;
     content := js "Quarterly results are out." |}.

(** A store that refuses the chunks of [doc7]. *)
Definition refusesDoc7 (documentId : str) (chunkIndex : nat) : bool :=
  bool_decide (documentId = doc7).

(** The state after a first run over the row [note]. *)
Definition afterFirstRun : state vector world :=
  snd (processRow (B := backend acceptsAll) ReembedNone (js "press_release")
         (Some note) (start empty)).

End Memory.

(** ** Reading texts and chunks

    What the statements about the chunker are written with. *)

(** The text without its white space. *)
Definition nonSpace (s : str) : str := List.filter (fun c => negb (isSpace c)) s.

(** [part] is found in [whole], as it stands. *)
Definition occursIn (part whole : str) : Prop :=
  exists before after, whole = before ++ part ++ after.

(** Some [.], [!] or [?] of the text is followed by white space. *)
Fixpoint hasBoundary (s : str) : bool :=
  match s with
  | c :: ((d :: _) as s') => (isSentenceEnd c && isSpace d) || hasBoundary s'
  | _ => false
  end.

(** A text without white space. *)
Definition spaceFree (s : str) : Prop := Forall (fun c => isSpace c = false) s.

(** Any two neighbours of [chunks] have [minSize] code units or more
    between them. *)
Fixpoint adjacentAtLeast (minSize : Z) (chunks : list str) : Prop :=
  match chunks with
  | a :: ((b :: _) as rest) => minSize <= len a + len b /\ adjacentAtLeast minSize rest
  | _ => True
  end.

(** The merge pass as a walk from left to right, with the accumulated
    chunk [acc]. *)
Fixpoint mergeWalk (minSize : Z) (acc : str) (rest : list str) : list str :=
  match rest with
  | [] => [acc]
  | next :: rest' =>
      if len acc + len next <? minSize
      then mergeWalk minSize (acc ++ space ++ next) rest'
      else acc :: mergeWalk minSize next rest'
  end.


(** Some chunk of [chunks] holds [part]. *)
Definition covers (chunks : list str) (part : str) : Prop :=
  exists c, In c chunks /\ occursIn part c.

(** [later] holds everything that [earlier] holds. *)
Definition keepsAll (earlier later : list str) : Prop :=
  forall c, In c earlier -> covers later c.

(** Reading a trace, continued: the chunk upserts that were called, the
    texts sent to the provider, the document upserts and the reported
    row failures. *)
Definition upsertAttempts {vector} (evs : list (event vector))
  : list (str * nat * str) :=
  flat_map (fun e =>
    match e with
    | EvUpsertChunk d i c _ => [(d, i, c)]
    | _ => []
    end) evs.

Definition embeddedTexts {vector} (evs : list (event vector)) : list str :=
  flat_map (fun e =>
    match e with
    | EvEmbed text => [text]
    | _ => []
    end) evs.

Definition documentUpserts {vector} (evs : list (event vector))
  : list SourceDocument :=
  flat_map (fun e =>
    match e with
    | EvUpsertDocument doc _ => [doc]
    | _ => []
    end) evs.

Definition rowFailures {vector} (evs : list (event vector)) : list unit :=
  flat_map (fun e =>
    match e with
    | EvRowFailed => [tt]
    | _ => []
    end) evs.

(** The chunks of a document with their positions, from [first] on. *)
Fixpoint indexed (documentId : str) (first : nat) (chunks : list str)
  : list (str * nat * str) :=
  match chunks with
  | [] => []
  | c :: rest => (documentId, first, c) :: indexed documentId (S first) rest
  end.

(** The statistics of [s'] against those of [s] and the events [evs] in
    between, for the processing of rows: the error counter is as it was,
    [embeddingsWritten] has grown by the provider calls that did not
    fail, [chunksCreated] by no more than the chunk upserts called and
    [documentsProcessed] by no more than the document upserts called. *)
Definition accounted {vector world} (s s' : state vector world)
    (evs : list (event vector)) : Prop :=
  events s' = events s ++ evs /\
  rowFailures evs = [] /\
  errors (stats s') = errors (stats s) /\
  (embeddingsWritten (stats s') + length (failedEmbeddings evs) =
   embeddingsWritten (stats s) + length (embeddedTexts evs))%nat /\
  (chunksCreated (stats s) <= chunksCreated (stats s')
   <= chunksCreated (stats s) + length (upsertAttempts evs))%nat /\
  (documentsProcessed (stats s) <= documentsProcessed (stats s')
   <= documentsProcessed (stats s) + length (documentUpserts evs))%nat.

(** The statistics of [s'] against those of [s] and the events [evs] in
    between, for a batch: as for a row, but each reported row failure has
    been counted as one error. *)
Definition batchAccounted {vector world} (s s' : state vector world)
    (evs : list (event vector)) : Prop :=
  events s' = events s ++ evs /\
  errors (stats s') = (errors (stats s) + length (rowFailures evs))%nat /\
  (embeddingsWritten (stats s') + length (failedEmbeddings evs) =
   embeddingsWritten (stats s) + length (embeddedTexts evs))%nat /\
  (chunksCreated (stats s) <= chunksCreated (stats s')
   <= chunksCreated (stats s) + length (upsertAttempts evs))%nat /\
  (documentsProcessed (stats s) <= documentsProcessed (stats s')
   <= documentsProcessed (stats s) + length (documentUpserts evs))%nat.

(** tables.ts, fetchTableRows: the rows [offset .. offset + limit - 1] of a
    source table, as the database returns them; it throws for a table
    without a mapper and on every error of the database. *)
Class RowSource (row world : Type) : Type := {
  fetchTableRows : str -> nat -> nat -> world -> result (list row) * world
}.

(** The statistics object that processTable creates. *)
Definition freshStats : IndexingStats :=
  {| documentsProcessed := 0; chunksCreated := 0;
     embeddingsWritten := 0; errors := 0 |}.

Section Pages.

Context {vector row world : Type} {B : Backend vector row world}
        {R : RowSource row world}.

(** [await fetchTableRows(tableName, limit, offset)] *)
Definition fetchPage (tableName : str) (limit offset : nat) : M (list row) :=
  fun s : state vector world =>
    let '(r, w) := fetchTableRows tableName limit offset (ext s) in
    (r, Build_state w (stats s) (events s)).

(** RAGIndexer.processTable: the [while (hasMore)] loop, for at most
    [fuel] turns.  The result tells whether the loop has ended. *)
Fixpoint processPages (fuel : nat) (reembed : ReembedMode) (tableName : str)
    (limit offset : nat) : M bool :=
  match fuel with
  | O => ret false
  | S fuel' =>
      bind (fetchPage tableName limit offset) (fun rows =>
        if (length rows =? 0)%nat then ret true
        else
          bind (processBatch reembed tableName rows) (fun _ =>
            if (length rows <? limit)%nat then ret true
            else processPages fuel' reembed tableName limit
                   (offset + length rows)))
  end.

(** RAGIndexer.processTable: fresh statistics, then the loop inside its
    [try]; the [catch] counts one error.  (The messages of processTable
    are left out of the trace.) *)
Definition processTable (fuel : nat) (reembed : ReembedMode) (tableName : str)
    (limit offset : nat) : M bool :=
  fun s : state vector world =>
    tryCatch (processPages fuel reembed tableName limit offset)
             (bind (updateStats incErrors) (fun _ => ret true))
             (Build_state (ext s) freshStats (events s)).

End Pages.

(** ** The table mappers (tables.ts)

    A raw row as the mappers read it: the [id] column, absent, a whole
    number or a text, and the other columns by name, each absent (or
    null) or a text.  (Rows are of type [any] in the source; columns of
    other kinds are outside this model, as are numbers that JavaScript
    prints with an exponent.) *)
Inductive RowId : Type :=
| IdAbsent
| IdNumber (n : Z)
| IdText (s : str).

Record RawRow : Type := {
  rowId : RowId;
  column : string -> option str
}.

(** [row.a || row.b || ...]: the first of the columns that holds a
    non-empty text. *)
Fixpoint firstTruthy (row : RawRow) (names : list string) : option str :=
  match names with
  | [] => None
  | name :: rest =>
      match column row name with
      | Some text => if truthy text then Some text else firstTruthy row rest
      | None => firstTruthy row rest
      end
  end.

(** [row.id?.toString() || 'unknown'] *)
Definition sourceIdOf (row : RawRow) : str :=
  match rowId row with
  | IdAbsent => js "unknown"
  | IdNumber n => js (NilZero.string_of_int (Z.to_int n))
  | IdText s => if truthy s then s else js "unknown"
  end.

(** The shape that the nine [transformRow] functions share: the name of
    the table, the columns tried for the title ([... || null]) and those
    tried for the content ([... || '']). *)
Definition mapRow (tableName : string) (titles contents : list string)
    (row : RawRow) : SourceDocument :=
  {| source_table := js tableName;
     source_id := sourceIdOf row;
     title := firstTruthy row titles;
     content := match firstTruthy row contents with
                | Some text => text
                | None => []
                end |}.

Definition internal_data : RawRow -> SourceDocument :=
  mapRow "internal_data" ["title"; "name"]%string ["content"; "description"; "notes"]%string.

Definition press_release : RawRow -> SourceDocument :=
  mapRow "press_release" ["title"; "headline"]%string ["content"; "body"; "text"]%string.

Definition board_members : RawRow -> SourceDocument :=
  mapRow "board_members" ["name"; "title"]%string
    ["bio"; "background"; "experience"; "description"]%string.

Definition partnerships : RawRow -> SourceDocument :=
  mapRow "partnerships" ["name"; "partner_name"; "title"]%string
    ["description"; "details"; "overview"]%string.

Definition financial_reports : RawRow -> SourceDocument :=
  mapRow "financial_reports" ["title"; "report_name"; "period"]%string
    ["content"; "summary"; "analysis"; "details"]%string.

Definition company_news : RawRow -> SourceDocument :=
  mapRow "company_news" ["title"; "headline"; "news_title"]%string
    ["content"; "body"; "article"; "summary"]%string.

Definition product_info : RawRow -> SourceDocument :=
  mapRow "product_info" ["name"; "product_name"; "title"]%string
    ["description"; "overview"; "features"; "details"]%string.

Definition executive_team : RawRow -> SourceDocument :=
  mapRow "executive_team" ["name"; "title"; "role"]%string
    ["bio"; "background"; "experience"; "description"]%string.

Definition investor_relations : RawRow -> SourceDocument :=
  mapRow "investor_relations" ["title"; "topic"; "subject"]%string
    ["content"; "details"; "information"; "overview"]%string.

(** tables.ts, TABLE_MAPPERS, in the order of the source. *)
Definition TABLE_MAPPERS : list (string * (RawRow -> SourceDocument)) :=
  [("internal_data", internal_data);
   ("press_release", press_release);
   ("board_members", board_members);
   ("partnerships", partnerships);
   ("financial_reports", financial_reports);
   ("company_news", company_news);
   ("product_info", product_info);
   ("executive_team", executive_team);
   ("investor_relations", investor_relations)]%string.

(** [TABLE_MAPPERS[tableName]] *)
Fixpoint mapperOf (mappers : list (string * (RawRow -> SourceDocument)))
    (tableName : str) : option (RawRow -> SourceDocument) :=
  match mappers with
  | [] => None
  | (name, mapper) :: rest =>
      if bool_decide (js name = tableName) then Some mapper
      else mapperOf rest tableName
  end.

(** tables.ts, transformRowToDocument.  (A name that the object inherits,
    such as [constructor], passes the test of the source and fails at
    the call of [transformRow]: it throws as well.) *)
Definition transformRowToDocumentBy (tableName : str) (row : RawRow)
  : result SourceDocument :=
  match mapperOf TABLE_MAPPERS tableName with
  | Some mapper => Ok (mapper row)
  | None => Throw
  end.

(** ** More of the in-memory backend: a source table and the mappers *)
Module Fixtures.
Import Memory.

(** A source table that does not change: a page is a window on [table]. *)
Definition windowSource (table : list row) : RowSource row world :=
  {| fetchTableRows := fun _ limit offset w =>
       (Ok (firstn limit (skipn offset table)), w) |}.


(** A row with an id and nothing else. *)
Definition bareRow : RawRow :=
  {| rowId := IdNumber 3; column := fun _ => None |}.

(** A document whose content is white space only. *)
Definition blankNote : SourceDocument := pressRelease (js "   ").

End Fixtures.

(** ** The chunker: basic facts *)

Section ChunkFacts.

Lemma join_head_tail (sep p : str) (rest : list str) :
  join sep (p :: rest) = p ++ joinTail sep rest.
Proof.
  revert p. induction rest as [|q rest IH]; intros p.
  - simpl. now rewrite app_nil_r.
  - change (join sep (p :: q :: rest)) with (p ++ sep ++ join sep (q :: rest)).
    rewrite IH. unfold joinTail. simpl. now rewrite <- app_assoc.
Qed.

Lemma joinTail_app (sep : str) (l1 l2 : list str) :
  joinTail sep (l1 ++ l2) = joinTail sep l1 ++ joinTail sep l2.
Proof. unfold joinTail. now rewrite List.map_app, List.concat_app. Qed.

(** Merging two neighbours with a space does not change the joined text. *)
Lemma join_merge_neighbours (sep : str) (merged rest : list str) (cur next : str) :
  join sep (merged ++ (cur ++ sep ++ next) :: rest) =
  join sep (merged ++ cur :: next :: rest).
Proof.
  destruct merged as [|a merged].
  - rewrite !app_nil_l, !join_head_tail. unfold joinTail. simpl.
    now rewrite <- !app_assoc.
  - rewrite <- !app_comm_cons, !join_head_tail, !joinTail_app.
    unfold joinTail. simpl. now rewrite <- !app_assoc.
Qed.

(** The state of the merge loop after the chunks [rest]: the chunks
    emitted so far followed by the accumulated chunk spell the same text
    as before the loop. *)
Lemma merge_loop_join (minSize : Z) (rest merged : list str) (cur : str) :
  join space (fst (fold_left (mergeStep minSize) rest (merged, cur)) ++
              [snd (fold_left (mergeStep minSize) rest (merged, cur))]) =
  join space (merged ++ cur :: rest).
Proof.
  revert merged cur.
  induction rest as [|next rest IH]; intros merged cur; simpl.
  - reflexivity.
  - destruct (len cur + len next <? minSize).
    + rewrite IH. exact (join_merge_neighbours space merged rest cur next).
    + rewrite IH. now rewrite <- app_assoc.
Qed.

Lemma merge_loop_emitted (minSize : Z) (rest merged : list str) (cur : str) :
  fold_left (mergeStep minSize) rest (merged, cur) =
  (merged ++ fst (fold_left (mergeStep minSize) rest ([], cur)),
   snd (fold_left (mergeStep minSize) rest ([], cur))).
Proof.
  revert merged cur.
  induction rest as [|next rest IH]; intros merged cur; simpl.
  - now rewrite app_nil_r.
  - destruct (len cur + len next <? minSize).
    + apply IH.
    + rewrite (IH (merged ++ [cur])), (IH [cur]). simpl.
      now rewrite <- app_assoc.
Qed.

End ChunkFacts.

(** ** The chunker: claims *)

Section ChunkClaims.

Variables (targetSize overlap minSize maxSize : Z).

Lemma mergeSmallChunks_cons (first : str) (rest : list str) :
  mergeSmallChunks (first :: rest) minSize =
  fst (fold_left (mergeStep minSize) rest ([], first)) ++
  [snd (fold_left (mergeStep minSize) rest ([], first))].
Proof.
  unfold mergeSmallChunks.
  now destruct (fold_left (mergeStep minSize) rest ([], first)).
Qed.

(** C5. The merge pass is a left-to-right walk: nothing comes out of no
    chunks; a lone accumulated chunk is emitted as it is; the accumulated
    chunk and the next one are merged (space-joined, and the walk goes on
    from the merged chunk) exactly when the sum of their lengths is
    strictly below [minSize]; otherwise the accumulated chunk is emitted
    unchanged and the walk restarts from the next chunk. *)
Theorem mergeSmallChunks_walk (acc next : str) (rest : list str) :
  mergeSmallChunks [] minSize = [] /\
  mergeSmallChunks [acc] minSize = [acc] /\
  mergeSmallChunks (acc :: next :: rest) minSize =
    (if len acc + len next <? minSize
     then mergeSmallChunks ((acc ++ space ++ next) :: rest) minSize
     else acc :: mergeSmallChunks (next :: rest) minSize).
Proof.
  repeat split.
  rewrite !mergeSmallChunks_cons.
  change (fold_left (mergeStep minSize) (next :: rest) ([], acc))
    with (fold_left (mergeStep minSize) rest (mergeStep minSize ([], acc) next)).
  unfold mergeStep at 2 4.
  destruct (len acc + len next <? minSize).
  - reflexivity.
  - rewrite merge_loop_emitted. reflexivity.
Qed.

(** C10. The merge pass only moves chunk boundaries: the output joined
    with single spaces is the input joined with single spaces (for the
    empty list as well as for every non-empty one). *)
Theorem mergeSmallChunks_join (chunks : list str) :
  join space (mergeSmallChunks chunks minSize) = join space chunks.
Proof.
  destruct chunks as [|first rest]; [reflexivity|].
  rewrite mergeSmallChunks_cons.
  exact (merge_loop_join minSize rest [] first).
Qed.

(** C6. The flush after the last sentence: a buffer of at least
    [minSize] code units becomes a chunk of its own; a smaller one is
    appended, after a space, to the last emitted chunk when there is one,
    and is emitted as it is when there is none. *)
Theorem flushRemaining_cases (emitted : list str) (lastChunk currentChunk : str) :
  flushRemaining minSize [] currentChunk = [currentChunk] /\
  flushRemaining minSize (emitted ++ [lastChunk]) currentChunk =
    (if len currentChunk >=? minSize
     then (emitted ++ [lastChunk]) ++ [currentChunk]
     else emitted ++ [lastChunk ++ space ++ currentChunk]).
Proof.
  split.
  - unfold flushRemaining. simpl. now destruct (len currentChunk >=? minSize).
  - unfold flushRemaining.
    destruct (len currentChunk >=? minSize); [reflexivity|].
    rewrite length_app. simpl length.
    replace (length emitted + 1 - 1)%nat with (length emitted + 0)%nat by lia.
    replace (0 <? length emitted + 1)%nat with true
      by (symmetry; apply Nat.ltb_lt; lia).
    now rewrite alter_app_r.
Qed.

(** C7. A text of at most [targetSize] code units is returned as the
    only chunk. *)
Theorem chunkText_short (text : str) :
  len text <= targetSize ->
  chunkText text targetSize overlap minSize maxSize = [text].
Proof.
  intros H. unfold chunkText.
  now rewrite (proj2 (Z.leb_le _ _) H).
Qed.

Lemma flushRemaining_length (chunks : list str) (currentChunk : str) :
  (0 < length (flushRemaining minSize chunks currentChunk))%nat.
Proof.
  unfold flushRemaining.
  destruct (len currentChunk >=? minSize).
  - rewrite length_app. simpl. lia.
  - destruct (0 <? length chunks)%nat eqn:E.
    + rewrite length_alter. now apply Nat.ltb_lt.
    + rewrite length_app. simpl. lia.
Qed.

Lemma addOverlap_length (chunks : list str) :
  length (addOverlap overlap chunks) = length chunks.
Proof. unfold addOverlap. now rewrite length_map, length_seq. Qed.

Lemma mergeSmallChunks_nonempty (chunks : list str) :
  chunks <> [] -> mergeSmallChunks chunks minSize <> [].
Proof.
  destruct chunks as [|first rest]; [congruence|]. intros _.
  rewrite mergeSmallChunks_cons. now destruct (fst _).
Qed.

(** C9. [chunkText] returns at least one chunk, whatever the text and
    the parameters. *)
Theorem chunkText_nonempty (text : str) :
  chunkText text targetSize overlap minSize maxSize <> [].
Proof.
  unfold chunkText.
  destruct (len text <=? targetSize); [discriminate|].
  destruct (fold_left _ _ _) as [chunks currentChunk].
  apply mergeSmallChunks_nonempty.
  intros E. apply (f_equal (@length _)) in E.
  rewrite addOverlap_length in E.
  pose proof (flushRemaining_length chunks currentChunk). simpl in E. lia.
Qed.

(** The empty text gives the single empty chunk for all parameters, also
    when [targetSize] is negative and the sentence path is taken. *)
Lemma chunkText_empty :
  chunkText [] targetSize overlap minSize maxSize = [[]].
Proof.
  unfold chunkText.
  destruct (len [] <=? targetSize); [reflexivity|].
  simpl. unfold flushRemaining.
  destruct (len [] >=? minSize); reflexivity.
Qed.

End ChunkClaims.

Example splitIntoSentences_ex :
  splitIntoSentences (js "One. Two!  Three?Four  . Five ") =
  [js "One."; js "Two!"; js "Three?Four  ."; js "Five"].
Proof. reflexivity. Qed.

Example splitSpaces_ex :
  splitSpaces (js " a  b ") = [js ""; js "a"; js "b"; js ""].
Proof. reflexivity. Qed.

Example getOverlapText_ex :
  getOverlapText (js "one two three four") 2 = js "three four" /\
  getOverlapText (js "one two") 5 = js "one two" /\
  getOverlapText (js "one two") 0 = js "".
Proof. repeat split. Qed.

(** Four sentences with the overlap of one word. *)
Example chunkText_ex :
  chunkText (js "Aaa bbb. Ccc ddd. Eee fff. Ggg hhh.") 10 1 5 12 =
  [js "Aaa bbb."; js "bbb. Ccc ddd."; js "ddd. Eee fff."; js "fff. Ggg hhh."].
Proof. reflexivity. Qed.

(** White space only, longer than [targetSize]: no sentence at all, and
    one empty chunk. *)
Example chunkText_blank :
  splitIntoSentences (js "     ") = [] /\
  chunkText (js "     ") 2 0 1 3 = [js ""].
Proof. split; reflexivity. Qed.

(** The word loop is entered only with a buffer above [maxSize] and
    below [minSize]; it joins the words of the buffer again, with single
    spaces. *)
Example chunkText_words :
  chunkText (js "aa  bb   cc") 5 0 12 6 = [js "aa bb cc"].
Proof. reflexivity. Qed.

(** C7, at an input. *)
Lemma chunkText_short_witness :
  len (js "Ateliere Connect.") <= 1200 /\
  chunkText (js "Ateliere Connect.") 1200 200 800 1500 = [js "Ateliere Connect."].
Proof.
  split; [unfold len; simpl; lia|].
  apply (chunkText_short 1200 200 800 1500 (js "Ateliere Connect.")).
  unfold len; simpl; lia.
Defined.

(** After the append the buffer ends with the sentence just read. *)
Lemma appendSentence_ends_with_sentence (targetSize minSize : Z)
    (chunks : list str) (currentChunk sentence : str) :
  exists before,
    snd (appendSentence targetSize minSize (chunks, currentChunk) sentence) =
    before ++ sentence.
Proof.
  unfold appendSentence.
  destruct (_ <=? targetSize); [|destruct (_ >=? minSize)]; cbn [snd].
  - eexists. now rewrite app_assoc.
  - now exists [].
  - eexists. now rewrite app_assoc.
Qed.

(** With [minSize <= maxSize] a buffer above [maxSize] always passes the
    test [>= minSize] of the forced split: the words of the buffer are
    never repacked, and the buffer is emitted as it stands, the sentence
    just read included, while the new buffer is that sentence again. *)
Lemma sentenceStep_forced_split (targetSize minSize maxSize : Z)
    (st : list str * str) (sentence : str) :
  minSize <= maxSize ->
  sentenceStep targetSize minSize maxSize st sentence =
  (let '(chunks, currentChunk) := appendSentence targetSize minSize st sentence in
   if len currentChunk >? maxSize then (chunks ++ [currentChunk], sentence)
   else (chunks, currentChunk)).
Proof.
  intros Hle. unfold sentenceStep.
  destruct (appendSentence targetSize minSize st sentence) as [chunks cur].
  destruct (len cur >? maxSize) eqn:Hmax; [|reflexivity].
  replace (len cur >=? minSize) with true; [reflexivity|].
  symmetry. apply Z.geb_le. apply Z.gtb_lt in Hmax. lia.
Qed.

(** C3. The forced split emits the buffer with the sentence just read in
    it and restarts the buffer from that same sentence, so the sentence
    comes out twice.  First with the sizes in their expected order: the
    buffer "Hello you." meets [minSize], the next sentence is longer than
    [maxSize]; it is emitted once by the forced split and once more by
    the flush.  Then with [targetSize] above [maxSize], where every
    sentence is appended to a buffer that meets [minSize]: each forced
    split repeats the sentence at the head of the next chunk. *)
Theorem chunkText_repeats_sentence :
  chunkText (js "Hello you. Abcdefghijklmnop.") 10 0 5 12 =
    [js "Hello you."; js "Abcdefghijklmnop."; js "Abcdefghijklmnop."] /\
  sentenceStep 30 5 12 ([], js "Hello you.") (js "Bye now.") =
    ([js "Hello you. Bye now."], js "Bye now.") /\
  chunkText (js "Hello you. Bye now. See you soon. Ok then.") 30 0 5 12 =
    [js "Hello you. Bye now."; js "Bye now. See you soon.";
     js "See you soon. Ok then."; js "Ok then."].
Proof. repeat split; vm_compute; reflexivity. Qed.

(** The same with the sizes of the indexer (1200, 200, 800, 1500): a
    sentence of 900 code units, then one of 1600.  The second sentence
    is emitted twice; with the overlap pass the three chunks have 900,
    2501 and 3201 code units for a text of 2501. *)
Example indexer_sizes_repeat_sentence :
  let first := repeat 97%N 899 ++ js "." in
  let second := repeat 98%N 1599 ++ js "." in
  chunkText (first ++ space ++ second) 1200 0 800 1500 = [first; second; second] /\
  List.map (@length N) (chunkText (first ++ space ++ second) 1200 200 800 1500) =
    [900; 2501; 3201]%nat.
Proof. split; vm_compute; reflexivity. Qed.

(** ** The indexer: basic facts *)

Section IndexerFacts.

Context {vector row world : Type} {B : Backend vector row world}.

Implicit Types (s : state vector world) (t : IndexingStats).

Local Abbreviation keepsErrors := (@keepsErrors vector world _).

Lemma bind_ok {A C} (m : M A) (k : A -> M C) s a s' :
  m s = (Ok a, s') -> bind m k s = k a s'.
Proof. intros E. unfold bind. now rewrite E. Qed.

Lemma bind_throw {A C} (m : M A) (k : A -> M C) s s' :
  m s = (Throw, s') -> bind m k s = (Throw, s').
Proof. intros E. unfold bind. now rewrite E. Qed.

Lemma keepsErrors_ret {A} (a : A) : keepsErrors (ret a).
Proof. now intros s. Qed.

Lemma keepsErrors_lift {A} (r : result A) : keepsErrors (lift r).
Proof. now intros s. Qed.

Lemma keepsErrors_report (e : event vector) : keepsErrors (report e).
Proof. now intros s. Qed.

Lemma keepsErrors_call {A} (e : event vector) (op : world -> result A * world) :
  keepsErrors (call e op).
Proof. intros s. unfold call. now destruct (op (ext s)). Qed.

Lemma keepsErrors_updateStats (f : IndexingStats -> IndexingStats) :
  (forall t, errors (f t) = errors t) -> keepsErrors (updateStats f).
Proof. intros Hf s. apply Hf. Qed.

Lemma keepsErrors_bind {A C} (m : M A) (k : A -> M C) :
  keepsErrors m -> (forall a, keepsErrors (k a)) -> keepsErrors (bind m k).
Proof.
  intros Hm Hk s. unfold bind. specialize (Hm s).
  destruct (m s) as [[a|] s']; simpl in Hm.
  - now rewrite Hk.
  - exact Hm.
Qed.

Lemma keepsErrors_tryCatch {A} (body handler : M A) :
  keepsErrors body -> keepsErrors handler -> keepsErrors (tryCatch body handler).
Proof.
  intros Hb Hh s. unfold tryCatch. specialize (Hb s).
  destruct (body s) as [[a|] s']; simpl in Hb.
  - exact Hb.
  - now rewrite Hh.
Qed.

Create HintDb stats_db.
#[local] Hint Resolve keepsErrors_ret keepsErrors_lift keepsErrors_report
  keepsErrors_call keepsErrors_bind keepsErrors_tryCatch : stats_db.

Lemma keepsErrors_processChunk mode documentId chunkIndex chunkContent :
  keepsErrors (processChunk mode documentId chunkIndex chunkContent).
Proof.
  unfold processChunk.
  apply keepsErrors_bind; [auto with stats_db|]. intros existing.
  apply keepsErrors_bind.
  - unfold resolveEmbedding. destruct (shouldEmbed mode existing).
    + apply keepsErrors_tryCatch; [|auto with stats_db].
      apply keepsErrors_bind; [auto with stats_db|]. intros v.
      apply keepsErrors_bind; [|auto with stats_db].
      now apply keepsErrors_updateStats.
    + destruct (storedEmbedding existing); auto with stats_db.
  - intros e. apply keepsErrors_bind; [auto with stats_db|]. intros _.
    now apply keepsErrors_updateStats.
Qed.

Lemma keepsErrors_processChunks mode documentId chunks :
  forall chunkIndex, keepsErrors (processChunks mode documentId chunkIndex chunks).
Proof.
  induction chunks as [|c rest IH]; intros i; simpl.
  - apply keepsErrors_ret.
  - apply keepsErrors_bind; [apply keepsErrors_processChunk|]. intros _. apply IH.
Qed.

(** processRow never touches the error counter itself. *)
Lemma keepsErrors_processRow mode tableName r :
  keepsErrors (processRow mode tableName r).
Proof.
  unfold processRow.
  apply keepsErrors_bind; [auto with stats_db|]. intros doc.
  destruct (_ || _); [auto with stats_db|].
  apply keepsErrors_bind; [auto with stats_db|]. intros existingHash.
  destruct (_ && _); [auto with stats_db|].
  apply keepsErrors_bind; [auto with stats_db|]. intros documentId.
  apply keepsErrors_bind; [now apply keepsErrors_updateStats|]. intros _.
  apply keepsErrors_processChunks.
Qed.

(** The batch loop always returns normally. *)
Lemma processBatch_returns mode tableName rows :
  forall s, exists s', processBatch mode tableName rows s = (Ok tt, s').
Proof.
  induction rows as [|r rest IH]; intros s; simpl.
  - now exists s.
  - unfold bind, tryCatch.
    destruct (processRow mode tableName r s) as [[[]|] s1]; simpl; apply IH.
Qed.

Lemma upsertedChunks_app (evs1 evs2 : list (event vector)) :
  upsertedChunks (evs1 ++ evs2) = upsertedChunks evs1 ++ upsertedChunks evs2.
Proof. apply flat_map_app. Qed.

(** With a reliable store one chunk is always brought to its upsert,
    whatever the provider does, and no error is counted. *)
Lemma processChunk_reliable mode documentId chunkIndex chunkContent s :
  reliableStore ->
  exists s' evs,
    processChunk mode documentId chunkIndex chunkContent s = (Ok tt, s') /\
    events s' = events s ++ evs /\
    List.map fst (upsertedChunks evs) = [chunkIndex] /\
    errors (stats s') = errors (stats s) /\
    chunksCreated (stats s') = S (chunksCreated (stats s)).
Proof.
  intros [Hget Hput]. unfold processChunk, resolveEmbedding, bind, call.
  destruct (Hget documentId chunkIndex (ext s)) as (existing & w1 & E1).
  rewrite E1. cbn [ext stats events].
  destruct (shouldEmbed mode existing).
  - unfold tryCatch, bind, call, report, updateStats, ret. cbn [ext stats events].
    destruct (embed chunkContent w1) as [[v|] w2]; cbn [ext stats events].
    + destruct (Hput documentId chunkIndex chunkContent (Some v) w2) as (id & w3 & E3).
      rewrite E3. eexists _, _. split; [reflexivity|]. cbn [ext stats events].
      split; [now rewrite <- !app_assoc|]. now split.
    + destruct (Hput documentId chunkIndex chunkContent None w2) as (id & w3 & E3).
      rewrite E3. eexists _, _. split; [reflexivity|]. cbn [ext stats events].
      split; [now rewrite <- !app_assoc|]. now split.
  - destruct (storedEmbedding existing) as [v|]; unfold ret, updateStats;
      cbn [ext stats events].
    + destruct (Hput documentId chunkIndex chunkContent (Some v) w1) as (id & w3 & E3).
      rewrite E3. eexists _, _. split; [reflexivity|]. cbn [ext stats events].
      split; [now rewrite <- !app_assoc|]. now split.
    + destruct (Hput documentId chunkIndex chunkContent None w1) as (id & w3 & E3).
      rewrite E3. eexists _, _. split; [reflexivity|]. cbn [ext stats events].
      split; [now rewrite <- !app_assoc|]. now split.
Qed.

(** The loop over the chunks, with a reliable store: every chunk is
    upserted, in order of its index, and no error is counted. *)
Lemma processChunks_reliable mode documentId chunks :
  reliableStore ->
  forall chunkIndex s,
  exists s' evs,
    processChunks mode documentId chunkIndex chunks s = (Ok tt, s') /\
    events s' = events s ++ evs /\
    List.map fst (upsertedChunks evs) = seq chunkIndex (length chunks) /\
    errors (stats s') = errors (stats s) /\
    chunksCreated (stats s') = (chunksCreated (stats s) + length chunks)%nat.
Proof.
  intros Hstore.
  induction chunks as [|c rest IH]; intros i s; simpl.
  - exists s, []. rewrite app_nil_r. repeat split. unfold ret. lia.
  - destruct (processChunk_reliable mode documentId i c s Hstore)
      as (s1 & evs1 & E1 & Hev1 & Hup1 & Herr1 & Hcnt1).
    destruct (IH (S i) s1) as (s2 & evs2 & E2 & Hev2 & Hup2 & Herr2 & Hcnt2).
    exists s2, (evs1 ++ evs2). rewrite (bind_ok _ _ _ _ _ E1).
    split; [exact E2|]. split; [now rewrite Hev2, Hev1, <- app_assoc|].
    split; [now rewrite upsertedChunks_app, List.map_app, Hup1, Hup2|].
    split; lia.
Qed.

Lemma processChunks_app mode documentId before after :
  forall chunkIndex s,
  processChunks mode documentId chunkIndex (before ++ after) s =
  match processChunks mode documentId chunkIndex before s with
  | (Ok _, s1) =>
      processChunks mode documentId (chunkIndex + length before) after s1
  | (Throw, s1) => (Throw, s1)
  end.
Proof.
  induction before as [|c rest IH]; intros i s; simpl.
  - unfold ret. now rewrite Nat.add_0_r.
  - unfold bind at 1 2.
    destruct (processChunk mode documentId i c s) as [[[]|] s1]; [|reflexivity].
    rewrite IH. now replace (S i + length rest)%nat with (i + S (length rest))%nat by lia.
Qed.

(** The chunk on which the provider throws: it is reported, upserted
    without an embedding and counted as a chunk; nothing else changes. *)
Lemma processChunk_embed_throws mode documentId chunkIndex chunkContent s
    existing w1 w2 id w3 :
  getChunk documentId chunkIndex (ext s) = (Ok existing, w1) ->
  shouldEmbed mode existing = true ->
  embed chunkContent w1 = (Throw, w2) ->
  upsertChunk documentId chunkIndex chunkContent None w2 = (Ok id, w3) ->
  processChunk mode documentId chunkIndex chunkContent s =
  (Ok tt,
   Build_state w3 (incChunksCreated (stats s))
     (events s ++ [EvGetChunk documentId chunkIndex; EvEmbed chunkContent;
                   EvEmbeddingFailed chunkIndex;
                   EvUpsertChunk documentId chunkIndex chunkContent None])).
Proof.
  intros E1 Hdec E2 E3.
  unfold processChunk, resolveEmbedding, bind, call. rewrite E1.
  cbn [ext stats events]. rewrite Hdec.
  unfold tryCatch, bind, call, report, updateStats, ret. cbn [ext stats events].
  rewrite E2. cbn [ext stats events]. rewrite E3. cbn [ext stats events].
  now rewrite <- !app_assoc.
Qed.

Lemma call_ok {A} (e : event vector) (op : world -> result A * world) s a w :
  op (ext s) = (Ok a, w) ->
  call e op s = (Ok a, Build_state w (stats s) (events s ++ [e])).
Proof. intros E. unfold call. now rewrite E. Qed.

Lemma events_call_then_update {A} (e : event vector)
    (op : world -> result A * world) (f : IndexingStats -> IndexingStats) s :
  events (snd (bind (call e op) (fun _ => updateStats f) s)) = events s ++ [e].
Proof. unfold bind, call, updateStats. now destruct (op (ext s)) as [[a|] w]. Qed.

(** When the guard holds the provider is called, and the failure of the
    call is absorbed. *)
Lemma resolveEmbedding_called mode chunkIndex chunkContent existing s :
  shouldEmbed mode existing = true ->
  exists e s' evs,
    resolveEmbedding mode chunkIndex chunkContent existing s = (Ok e, s') /\
    events s' = events s ++ EvEmbed chunkContent :: evs.
Proof.
  intros Hdec. unfold resolveEmbedding. rewrite Hdec.
  unfold tryCatch, bind, call, report, updateStats, ret.
  destruct (embed chunkContent (ext s)) as [[v|] w2]; cbn [ext stats events].
  - now exists (Some v), (Build_state w2 (incEmbeddingsWritten (stats s))
                            (events s ++ [EvEmbed chunkContent])), [].
  - eexists None, _, [EvEmbeddingFailed chunkIndex].
    split; [reflexivity|]. cbn [events]. now rewrite <- app_assoc.
Qed.

(** When the guard fails the stored embedding is handed on and nothing
    is called. *)
Lemma resolveEmbedding_reused mode chunkIndex chunkContent existing s :
  shouldEmbed mode existing = false ->
  resolveEmbedding mode chunkIndex chunkContent existing s =
  (Ok (storedEmbedding existing), s).
Proof.
  intros Hdec. unfold resolveEmbedding. rewrite Hdec.
  now destruct (storedEmbedding existing).
Qed.

End IndexerFacts.

(** ** The indexer: claims *)

Section IndexerClaims.

Context {vector row world : Type} {B : Backend vector row world}.

Implicit Types (s : state vector world).

(** C1, as the code has it.  After the stored chunk of the position has
    been read: under "all" the provider is called; in every mode a
    position without a stored embedding (no chunk, or a chunk whose
    embedding is null) has the provider called; under "none" a stored
    embedding is carried into the upsert and the provider is not called.
    (What "missing" does with a stored embedding is left open.) *)
Theorem processChunk_decision mode documentId chunkIndex chunkContent s existing w1 :
  getChunk documentId chunkIndex (ext s) = (Ok existing, w1) ->
  (mode = ReembedMissing -> storedEmbedding existing = None) ->
  exists evs,
    events (snd (processChunk mode documentId chunkIndex chunkContent s)) =
      events s ++ EvGetChunk documentId chunkIndex :: evs /\
    match mode, storedEmbedding existing with
    | ReembedNone, Some v =>
        evs = [EvUpsertChunk documentId chunkIndex chunkContent (Some v)]
    | _, _ => exists evs', evs = EvEmbed chunkContent :: evs'
    end.
Proof.
  intros E1 Hmissing. unfold processChunk.
  rewrite (bind_ok _ _ _ _ _ (call_ok _ _ _ _ _ E1)).
  destruct (shouldEmbed mode existing) eqn:Hdec.
  - destruct (resolveEmbedding_called mode chunkIndex chunkContent existing
                (Build_state w1 (stats s) (events s ++ [EvGetChunk documentId chunkIndex]))
                Hdec) as (e & s2 & evs' & E2 & Hev).
    rewrite (bind_ok _ _ _ _ _ E2), events_call_then_update, Hev.
    cbn [events]. rewrite <- !app_assoc.
    eexists. split; [reflexivity|].
    assert (Hgoal : exists evs0 : list (event vector),
      EvEmbed chunkContent :: evs' ++
        [EvUpsertChunk documentId chunkIndex chunkContent e] =
      EvEmbed chunkContent :: evs0) by (eexists; reflexivity).
    destruct mode; [|exact Hgoal|exact Hgoal].
    destruct (storedEmbedding existing) as [v|] eqn:Estored; [|exact Hgoal].
    unfold shouldEmbed in Hdec. rewrite Estored in Hdec. cbn [orb] in Hdec.
    rewrite bool_decide_true in Hdec by eauto. discriminate.
  - rewrite (bind_ok _ _ _ _ _
               (resolveEmbedding_reused mode chunkIndex chunkContent existing _ Hdec)).
    rewrite events_call_then_update. cbn [events]. rewrite <- !app_assoc.
    eexists. split; [reflexivity|].
    unfold shouldEmbed in Hdec.
    destruct mode; cbn [orb] in Hdec; try discriminate.
    destruct (storedEmbedding existing) as [v|]; [reflexivity|].
    rewrite bool_decide_false in Hdec by (intros [? ?]; discriminate).
    discriminate.
Qed.

(** C2, as the code has it.  With a store that does not throw, let the
    provider throw on the chunk [chunkContent] of a document, after the
    chunks [before] and ahead of the chunks [after].  The loop still
    returns normally; every chunk is upserted once, in order of its
    index; the failure is reported and the failing chunk is upserted with
    a null embedding; the error counter of the statistics is NOT
    changed (only [chunksCreated] grows, by the number of chunks). *)
Theorem processChunks_embed_failure mode documentId first before chunkContent after
    s0 s existing w1 w2 :
  reliableStore ->
  processChunks mode documentId first before s0 = (Ok tt, s) ->
  getChunk documentId (first + length before)%nat (ext s) = (Ok existing, w1) ->
  shouldEmbed mode existing = true ->
  embed chunkContent w1 = (Throw, w2) ->
  exists s' evs,
    processChunks mode documentId first (before ++ chunkContent :: after) s0 =
      (Ok tt, s') /\
    events s' = events s0 ++ evs /\
    List.map fst (upsertedChunks evs) =
      seq first (length (before ++ chunkContent :: after)) /\
    In (EvEmbeddingFailed (first + length before)%nat) evs /\
    In (EvUpsertChunk documentId (first + length before)%nat chunkContent None) evs /\
    errors (stats s') = errors (stats s0) /\
    chunksCreated (stats s') =
      (chunksCreated (stats s0) + length (before ++ chunkContent :: after))%nat.
Proof.
  intros Hstore Ebefore E1 Hdec E2.
  set (chunkIndex := (first + length before)%nat) in *.
  set (chunks := before ++ chunkContent :: after).
  destruct (processChunks_reliable mode documentId before Hstore first s0)
    as (s_ & evs0 & Ebefore' & Hev0 & Hup0 & Herr0 & Hcnt0).
  rewrite Ebefore in Ebefore'. injection Ebefore' as <-.
  destruct (proj2 Hstore documentId chunkIndex chunkContent None w2)
    as (id & w3 & E3).
  pose proof (processChunk_embed_throws mode documentId chunkIndex chunkContent
                s existing w1 w2 id w3 E1 Hdec E2 E3) as Echunk.
  set (s1 := Build_state w3 (incChunksCreated (stats s))
               (events s ++ [EvGetChunk documentId chunkIndex; EvEmbed chunkContent;
                             EvEmbeddingFailed chunkIndex;
                             EvUpsertChunk documentId chunkIndex chunkContent None]))
    in Echunk.
  destruct (processChunks_reliable mode documentId after Hstore (S chunkIndex) s1)
    as (s2 & evs2 & Eafter & Hev2 & Hup2 & Herr2 & Hcnt2).
  exists s2, (evs0 ++ [EvGetChunk documentId chunkIndex; EvEmbed chunkContent;
                      EvEmbeddingFailed chunkIndex;
                      EvUpsertChunk documentId chunkIndex chunkContent None] ++ evs2).
  split.
  { unfold chunks. rewrite processChunks_app, Ebefore.
    cbn [processChunks]. fold chunkIndex.
    now rewrite (bind_ok _ _ _ _ _ Echunk). }
  split.
  { rewrite Hev2. unfold s1. cbn [events]. rewrite Hev0.
    now rewrite <- !app_assoc. }
  split.
  { rewrite !upsertedChunks_app, !List.map_app, Hup0, Hup2. unfold chunks.
    rewrite length_app. cbn [length]. rewrite seq_app. cbn [seq].
    fold chunkIndex. reflexivity. }
  split; [apply in_or_app; right; cbn; tauto|].
  split; [apply in_or_app; right; cbn; tauto|].
  unfold chunks. rewrite length_app. cbn [length].
  unfold s1 in *. cbn [stats errors chunksCreated incChunksCreated] in *.
  split; lia.
Qed.

(** C4. Let the store answer the fingerprint read of a row with the
    digest of the row's content, under "none".  Then [processRow]
    returns normally, leaves the statistics as they are, and adds no
    document upsert, no chunk upsert and no provider call to the trace. *)
Theorem processRow_unchanged_skips tableName (r : row) s sourceDoc w' :
  transformRowToDocument tableName r = Ok sourceDoc ->
  getDocumentHash (source_table sourceDoc) (source_id sourceDoc) (ext s) =
    (Ok (Some (generateContentHash (content sourceDoc))), w') ->
  exists s',
    processRow ReembedNone tableName r s = (Ok tt, s') /\
    stats s' = stats s /\
    List.filter isWriteOrEmbed (events s') = List.filter isWriteOrEmbed (events s) /\
    (ext s' = ext s \/ ext s' = w').
Proof.
  intros Etransform Ehash. unfold processRow, bind, lift.
  rewrite Etransform.
  destruct (_ || _).
  - exists s. unfold ret. tauto.
  - rewrite (call_ok _ _ _ _ _ Ehash).
    rewrite bool_decide_true by reflexivity. cbn [andb]. unfold ret.
    eexists. split; [reflexivity|]. cbn [ext stats events].
    rewrite List.filter_app. cbn. rewrite app_nil_r. tauto.
Qed.

(** C8. A row on which [processRow] throws, at any point and whatever
    it had done before: the batch loop catches the failure, counts it
    as one error (the row itself never touches the error counter) and
    goes on with the remaining rows from there; the loop as a whole
    returns normally. *)
Theorem processBatch_isolates_row mode tableName (r : row) rest s s1 :
  processRow mode tableName r s = (Throw, s1) ->
  let caught :=
    Build_state (ext s1) (incErrors (stats s1)) (events s1 ++ [EvRowFailed]) in
  errors (stats caught) = S (errors (stats s)) /\
  processBatch mode tableName (r :: rest) s = processBatch mode tableName rest caught /\
  exists s', processBatch mode tableName (r :: rest) s = (Ok tt, s').
Proof.
  intros Erow caught. split; [|split].
  - pose proof (keepsErrors_processRow mode tableName r s) as H.
    rewrite Erow in H. cbn in *. now rewrite H.
  - cbn [processBatch]. unfold bind at 1, tryCatch. rewrite Erow.
    unfold bind, report, updateStats. reflexivity.
  - apply processBatch_returns.
Qed.

(** A row that is processed without a failure counts no error. *)
Lemma processBatch_row_ok mode tableName (r : row) rest s s1 :
  processRow mode tableName r s = (Ok tt, s1) ->
  errors (stats s1) = errors (stats s) /\
  processBatch mode tableName (r :: rest) s = processBatch mode tableName rest s1.
Proof.
  intros Erow. split.
  - pose proof (keepsErrors_processRow mode tableName r s) as H.
    now rewrite Erow in H.
  - cbn [processBatch]. unfold bind at 1, tryCatch. now rewrite Erow.
Qed.

End IndexerClaims.

(** ** The indexer on the in-memory backend *)

Module MemoryRuns.
Import Memory.

Lemma memory_reliable (rejects : str -> bool) :
  reliableStore (B := backend rejects).
Proof. split; intros; eexists _, _; reflexivity. Qed.

(** C1, at an input: under "none", a chunk stored with an embedding
    keeps it, and the provider is not called. *)
Lemma processChunk_decision_witness :
  exists evs,
    events (snd (processChunk (B := backend acceptsAll) ReembedNone doc7 0
                   (js "New text.") (seeded (Some [9])))) =
      events (seeded (Some [9])) ++ EvGetChunk doc7 0 :: evs /\
    evs = [EvUpsertChunk doc7 0 (js "New text.") (Some [9])].
Proof.
  refine (processChunk_decision (B := backend acceptsAll) ReembedNone doc7 0
            (js "New text.") (seeded (Some [9]))
            (Some {| chunk_id := doc7; document_id := doc7; chunk_index := 0;
                     chunk_content := js "Old text."; embedding := Some [9] |})
            (ext (seeded (Some [9]))) _ _).
  - vm_compute. reflexivity.
  - discriminate.
Defined.

(** C1, against the claim: under "none", a chunk that is stored with a
    null embedding has its embedding computed by the provider. *)
Lemma reembed_none_recomputes_null_embedding :
  getChunk (Backend := backend acceptsAll) doc7 0 (ext (seeded None)) =
    (Ok (Some {| chunk_id := doc7; document_id := doc7; chunk_index := 0;
                 chunk_content := js "Old text."; embedding := None |}),
     ext (seeded None)) /\
  shouldEmbed ReembedNone
    (Some {| chunk_id := doc7; document_id := doc7; chunk_index := 0;
             chunk_content := js "Old text."; embedding := @None vector |}) = true /\
  events (snd (processChunk (B := backend acceptsAll) ReembedNone doc7 0
                 (js "New text.") (seeded None))) =
    [EvGetChunk doc7 0; EvEmbed (js "New text.");
     EvUpsertChunk doc7 0 (js "New text.") (Some [9])].
Proof. repeat split; vm_compute; reflexivity. Qed.

(** The slip of "missing": a stored embedding does not stop the
    provider call, "missing" behaves as "all". *)
Lemma reembed_missing_recomputes_stored_embedding :
  events (snd (processChunk (B := backend acceptsAll) ReembedMissing doc7 0
                 (js "New text.") (seeded (Some [1])))) =
    [EvGetChunk doc7 0; EvEmbed (js "New text.");
     EvUpsertChunk doc7 0 (js "New text.") (Some [9])].
Proof. vm_compute. reflexivity. Qed.

(** C2, against the claim: a document of five chunks, with a provider
    that throws on the third one.  The five chunks are upserted, the
    third one without an embedding, one failure is reported, and the
    error counter of the statistics stays at 0. *)
Lemma embed_failure_counts_no_error :
  length (chunkText fiveSentences 1200 200 800 1500) = 5%nat /\
  List.map rejectsB (chunkText fiveSentences 1200 200 800 1500) =
    [false; false; true; false; false] /\
  let s' := snd (processBatch (B := backend rejectsB) ReembedNone
                   (js "press_release") [Some (pressRelease fiveSentences)]
                   (start empty)) in
  upsertedChunks (events s') =
    [(0, true); (1, true); (2, false); (3, true); (4, true)]%nat /\
  failedEmbeddings (events s') = [2%nat] /\
  stats s' = {| documentsProcessed := 1; chunksCreated := 5;
                embeddingsWritten := 4; errors := 0 |} /\
  errors (stats s') <> 1%nat.
Proof. repeat split; vm_compute; congruence. Qed.

(** C2, at an input: three chunks, the provider throws on the second. *)
Lemma processChunks_embed_failure_witness :
  exists s' evs,
    processChunks (B := backend rejectsB) ReembedAll doc7 0
      ([js "alpha"] ++ js "beta" :: [js "gamma"]) (start empty) = (Ok tt, s') /\
    events s' = events (start empty) ++ evs /\
    List.map fst (upsertedChunks evs) = seq 0 3 /\
    In (EvEmbeddingFailed 1) evs /\
    In (EvUpsertChunk doc7 1 (js "beta") None) evs /\
    errors (stats s') = errors (stats (start empty)) /\
    chunksCreated (stats s') = (chunksCreated (stats (start empty)) + 3)%nat.
Proof.
  refine (processChunks_embed_failure (B := backend rejectsB) ReembedAll doc7 0
            [js "alpha"] (js "beta") [js "gamma"] (start empty)
            (snd (processChunks (B := backend rejectsB) ReembedAll doc7 0
                    [js "alpha"] (start empty)))
            None
            (ext (snd (processChunks (B := backend rejectsB) ReembedAll doc7 0
                         [js "alpha"] (start empty))))
            (ext (snd (processChunks (B := backend rejectsB) ReembedAll doc7 0
                         [js "alpha"] (start empty))))
            (memory_reliable rejectsB) _ _ _ _);
    vm_compute; reflexivity.
Defined.

(** C4, at an input: the second run over the same row. *)
Lemma processRow_unchanged_skips_witness :
  exists s',
    processRow (B := backend acceptsAll) ReembedNone (js "press_release")
      (Some note) afterFirstRun = (Ok tt, s') /\
    stats s' = stats afterFirstRun /\
    List.filter isWriteOrEmbed (events s') =
      List.filter isWriteOrEmbed (events afterFirstRun) /\
    (ext s' = ext afterFirstRun \/ ext s' = ext afterFirstRun).
Proof.
  refine (processRow_unchanged_skips (B := backend acceptsAll)
            (js "press_release") (Some note) afterFirstRun note
            (ext afterFirstRun) _ _);
    vm_compute; reflexivity.
Defined.

(** On the in-memory store the chunk loop leaves the fingerprints alone. *)
Lemma memory_processChunks_docs (rejects : str -> bool) mode documentId chunks :
  forall chunkIndex (s : state vector world),
  docs (ext (snd (processChunks (B := backend rejects) mode documentId
                    chunkIndex chunks s))) = docs (ext s).
Proof.
  induction chunks as [|c rest IH]; intros i s; [reflexivity|].
  cbn [processChunks]. unfold bind at 1.
  destruct (processChunk (B := backend rejects) mode documentId i c s)
    as [[[]|] s1] eqn:E.
  - rewrite IH. clear IH.
    revert E. unfold processChunk, resolveEmbedding, bind, call, tryCatch,
      report, updateStats, ret. cbn.
    destruct (shouldEmbed mode _); cbn.
    + unfold provider. destruct (rejects c); cbn; intros [= <-]; reflexivity.
    + destruct (storedEmbedding _); cbn; intros [= <-]; reflexivity.
  - revert E. unfold processChunk, resolveEmbedding, bind, call, tryCatch,
      report, updateStats, ret. cbn.
    destruct (shouldEmbed mode _); cbn.
    + unfold provider. destruct (rejects c); cbn; discriminate.
    + destruct (storedEmbedding _); cbn; discriminate.
Qed.

(** The second run itself, on the in-memory store: whatever the first
    run over a document did, a second run under "none" over the same
    document returns normally without any write or provider call. *)
Lemma memory_second_run_is_silent (rejects : str -> bool) mode tableName
    (doc : SourceDocument) (s : state vector world) :
  let s1 := snd (processRow (B := backend rejects) mode tableName (Some doc) s) in
  exists s2,
    processRow (B := backend rejects) ReembedNone tableName (Some doc) s1 =
      (Ok tt, s2) /\
    stats s2 = stats s1 /\
    List.filter isWriteOrEmbed (events s2) = List.filter isWriteOrEmbed (events s1).
Proof.
  intros s1.
  destruct (negb (truthy (content doc))
            || (length (trim (content doc)) =? 0)%nat) eqn:Eempty.
  - exists s1. unfold processRow, bind, lift. cbn [transformRowToDocument backend transformRow].
    rewrite Eempty. now unfold ret.
  - assert (Hstored : docs (ext s1) !! (source_table doc, source_id doc) =
                      Some (content doc)).
    { subst s1. unfold processRow, bind, lift, call.
      cbn [transformRowToDocument getDocumentHash upsertDocument
           generateContentHash backend transformRow readHash writeDocument].
      rewrite Eempty. cbn [ext stats events].
      destruct (bool_decide _ && _) eqn:Eskip.
      - apply andb_prop in Eskip as [Eq _]. apply bool_decide_eq_true in Eq.
        exact Eq.
      - unfold updateStats at 1. cbn [ext stats events].
        rewrite memory_processChunks_docs. cbn [ext docs].
        apply lookup_insert_eq. }
    unfold processRow, bind, lift, call.
    cbn [transformRowToDocument getDocumentHash generateContentHash backend
         transformRow].
    rewrite Eempty. unfold readHash. rewrite Hstored.
    rewrite bool_decide_true by reflexivity. cbn [andb]. unfold ret.
    eexists. split; [reflexivity|]. cbn [ext stats events].
    rewrite List.filter_app. cbn. now rewrite app_nil_r.
Qed.

(** The first run did write: one document, one chunk, one embedding. *)
Example first_run_writes :
  stats afterFirstRun = {| documentsProcessed := 1; chunksCreated := 1;
                           embeddingsWritten := 1; errors := 0 |} /\
  length (List.filter isWriteOrEmbed (events afterFirstRun)) = 3%nat.
Proof. split; vm_compute; reflexivity. Qed.

(** C8, at an input: the store refuses the chunk of the first row, after
    its document has been written and its embedding computed; the second
    row is processed all the same. *)
Lemma processBatch_isolates_row_witness :
  let B := refusingBackend acceptsAll refusesDoc7 in
  let s1 := snd (processRow (B := B) ReembedNone (js "press_release")
                   (Some note) (start empty)) in
  processRow (B := B) ReembedNone (js "press_release") (Some note) (start empty) =
    (Throw, s1) /\
  errors (stats (Build_state (ext s1) (incErrors (stats s1))
                   (events s1 ++ [EvRowFailed]))) =
    S (errors (stats (start empty))) /\
  processBatch (B := B) ReembedNone (js "press_release")
    (Some note :: [Some memo]) (start empty) =
  processBatch (B := B) ReembedNone (js "press_release") [Some memo]
    (Build_state (ext s1) (incErrors (stats s1)) (events s1 ++ [EvRowFailed])) /\
  exists s',
    processBatch (B := B) ReembedNone (js "press_release")
      (Some note :: [Some memo]) (start empty) = (Ok tt, s').
Proof.
  intros B s1.
  assert (Erow : processRow (B := B) ReembedNone (js "press_release")
                   (Some note) (start empty) = (Throw, s1))
    by (vm_compute; reflexivity).
  split; [exact Erow|].
  exact (processBatch_isolates_row (B := B) ReembedNone (js "press_release")
           (Some note) [Some memo] (start empty) s1 Erow).
Defined.

(** That batch: the first row leaves its document and its embedding
    behind and counts as one error, the second row is indexed. *)
Example batch_with_refused_chunk :
  stats (snd (processBatch (B := refusingBackend acceptsAll refusesDoc7)
                ReembedNone (js "press_release") [Some note; Some memo]
                (start empty))) =
  {| documentsProcessed := 2; chunksCreated := 1;
     embeddingsWritten := 2; errors := 1 |}.
Proof. vm_compute. reflexivity. Qed.

(** A batch whose first row makes the mapper throw. *)
Example batch_with_failing_row :
  stats (snd (processBatch (B := backend acceptsAll) ReembedNone
                (js "press_release") [None; Some note] (start empty))) =
  {| documentsProcessed := 1; chunksCreated := 1;
     embeddingsWritten := 1; errors := 1 |}.
Proof. vm_compute. reflexivity. Qed.

End MemoryRuns.

(** * Further properties of the chunker *)

Section SplitFacts.

Lemma trimStart_head (s : str) (c : N) :
  head (trimStart s) = Some c -> isSpace c = false.
Proof.
  induction s as [|d s IH]; simpl; [discriminate|].
  destruct (isSpace d) eqn:E; [exact IH|].
  simpl. now intros [= <-].
Qed.

Lemma trimStart_app_nonspace (l r : str) (c : N) :
  isSpace c = false -> trimStart (l ++ c :: r) = trimStart l ++ c :: r.
Proof.
  intros Hc. induction l as [|d l IH]; simpl.
  - now rewrite Hc.
  - now destruct (isSpace d).
Qed.

Lemma last_rev_head (s : str) : last (rev s) = head s.
Proof. destruct s as [|c s]; [reflexivity|]. simpl. apply last_snoc. Qed.

Lemma trimEnd_last (s : str) (c : N) :
  last (trimEnd s) = Some c -> isSpace c = false.
Proof.
  unfold trimEnd. rewrite last_rev_head. apply trimStart_head.
Qed.

Lemma trimEnd_head (s : str) (c : N) :
  isSpace c = false -> trimEnd (c :: s) = c :: trimEnd s.
Proof.
  intros Hc. unfold trimEnd. simpl rev at 2.
  replace (rev s ++ [c]) with (rev s ++ c :: []) by reflexivity.
  rewrite trimStart_app_nonspace by exact Hc.
  now rewrite rev_app_distr.
Qed.

Lemma trim_head (s : str) (c : N) :
  head (trim s) = Some c -> isSpace c = false.
Proof.
  unfold trim. destruct (trimStart s) as [|d t] eqn:E.
  - discriminate.
  - assert (Hd : isSpace d = false) by (apply (trimStart_head s); now rewrite E).
    rewrite trimEnd_head by exact Hd. simpl. now intros [= <-].
Qed.

Lemma trim_last (s : str) (c : N) :
  last (trim s) = Some c -> isSpace c = false.
Proof. unfold trim. apply trimEnd_last. Qed.

Lemma nonSpace_app (a b : str) : nonSpace (a ++ b) = nonSpace a ++ nonSpace b.
Proof. apply List.filter_app. Qed.

Lemma nonSpace_trimStart (s : str) : nonSpace (trimStart s) = nonSpace s.
Proof.
  induction s as [|c s IH]; [reflexivity|]. simpl.
  destruct (isSpace c) eqn:E; simpl; [exact IH|]. now rewrite E.
Qed.

Lemma nonSpace_trim (s : str) : nonSpace (trim s) = nonSpace s.
Proof.
  unfold trim, trimEnd, nonSpace.
  rewrite List.filter_rev. fold (nonSpace (trimStart (rev (trimStart s)))).
  rewrite nonSpace_trimStart. unfold nonSpace. rewrite List.filter_rev, rev_involutive.
  apply nonSpace_trimStart.
Qed.

Lemma splitSentencesFrom_content (s : str) :
  forall afterEnd inRun cur,
  nonSpace (List.concat (splitSentencesFrom afterEnd inRun cur s)) =
  nonSpace (rev cur ++ s).
Proof.
  assert (Hdrop : forall (a b : str) c, isSpace c = true ->
            nonSpace (a ++ c :: b) = nonSpace (a ++ b)).
  { intros a b c Hc. unfold nonSpace. rewrite !List.filter_app. simpl. now rewrite Hc. }
  induction s as [|c s IH]; intros afterEnd inRun cur;
    cbn [splitSentencesFrom].
  - cbn [List.concat]. reflexivity.
  - destruct (isSpace c) eqn:Ec.
    + destruct inRun; [|destruct afterEnd].
      * now rewrite IH, Hdrop.
      * cbn [List.concat]. rewrite nonSpace_app, IH, Hdrop by exact Ec.
        cbn [rev app]. now rewrite nonSpace_app.
      * rewrite IH. cbn [rev]. now rewrite <- app_assoc.
    + rewrite IH. cbn [rev]. now rewrite <- app_assoc.
Qed.

Lemma pieces_content (pieces : list str) :
  nonSpace (List.concat
    (List.filter (fun s => (0 <? length s)%nat) (List.map trim pieces))) =
  nonSpace (List.concat pieces).
Proof.
  induction pieces as [|p pieces IH]; [reflexivity|].
  cbn [List.map List.filter List.concat].
  rewrite (nonSpace_app p), <- (nonSpace_trim p), <- IH.
  destruct (trim p) as [|c t].
  - reflexivity.
  - cbn [length Nat.ltb Nat.leb List.concat]. now rewrite nonSpace_app.
Qed.

(** X1. No text is lost by the sentence splitter: the sentences, one after
    the other, spell the text without its white space. *)
Theorem splitIntoSentences_content (text : str) :
  nonSpace (List.concat (splitIntoSentences text)) = nonSpace text.
Proof.
  unfold splitIntoSentences.
  rewrite pieces_content. apply (splitSentencesFrom_content text false false []).
Qed.

(** X2. Every sentence is non-empty and neither starts nor ends with white space. *)
Theorem splitIntoSentences_trimmed (text sentence : str) :
  In sentence (splitIntoSentences text) ->
  sentence <> [] /\
  (forall c, head sentence = Some c -> isSpace c = false) /\
  (forall c, last sentence = Some c -> isSpace c = false).
Proof.
  unfold splitIntoSentences. intros H.
  apply List.filter_In in H as [H Hlen].
  apply List.in_map_iff in H as (piece & <- & _).
  split; [|split].
  - intros E. rewrite E in Hlen. discriminate.
  - apply trim_head.
  - apply trim_last.
Qed.

Lemma splitSentencesFrom_no_boundary (s : str) :
  forall afterEnd cur,
  (afterEnd = true -> forall c, head s = Some c -> isSpace c = false) ->
  hasBoundary s = false ->
  splitSentencesFrom afterEnd false cur s = [rev cur ++ s].
Proof.
  induction s as [|c s IH]; intros afterEnd cur Hafter Hb.
  - simpl. now rewrite app_nil_r.
  - cbn [splitSentencesFrom].
    assert (Hb' : hasBoundary s = false /\
                  (isSentenceEnd c = true -> forall d, head s = Some d -> isSpace d = false)).
    { destruct s as [|d s']; [split; [reflexivity|intros _ d; discriminate]|].
      cbn [hasBoundary] in Hb. apply orb_false_elim in Hb as [H1 H2].
      split; [exact H2|]. intros He d0 [= <-]. rewrite He in H1. exact H1. }
    destruct Hb' as [Hb1 Hb2].
    destruct (isSpace c) eqn:Ec.
    + destruct afterEnd.
      * specialize (Hafter eq_refl c eq_refl). congruence.
      * rewrite IH; [|discriminate|exact Hb1].
        simpl. now rewrite <- app_assoc.
    + rewrite IH; [|exact Hb2|exact Hb1].
      simpl. now rewrite <- app_assoc.
Qed.

(** X3. A text in which no [.], [!] or [?] is followed by white space is
    one sentence, the trimmed text (or no sentence when blank). *)
Theorem splitIntoSentences_one_sentence (text : str) :
  hasBoundary text = false ->
  splitIntoSentences text =
  (if (0 <? length (trim text))%nat then [trim text] else []).
Proof.
  intros Hb. unfold splitIntoSentences.
  rewrite splitSentencesFrom_no_boundary by (discriminate || exact Hb).
  reflexivity.
Qed.

End SplitFacts.

Section WordFacts.

Lemma splitSpacesFrom_spaceFree (s : str) :
  forall inRun cur, spaceFree cur ->
  Forall spaceFree (splitSpacesFrom inRun cur s).
Proof.
  induction s as [|c s IH]; intros inRun cur Hcur; cbn [splitSpacesFrom].
  - constructor; [|constructor]. now apply List.Forall_rev.
  - destruct (isSpace c) eqn:Ec.
    + destruct inRun.
      * now apply IH.
      * constructor.
        -- now apply List.Forall_rev.
        -- apply IH. constructor.
    + apply IH. now constructor.
Qed.

Lemma splitSpacesFrom_content (s : str) :
  forall inRun cur,
  List.concat (splitSpacesFrom inRun cur s) = rev cur ++ nonSpace s.
Proof.
  induction s as [|c s IH]; intros inRun cur; cbn [splitSpacesFrom].
  - cbn. now rewrite app_nil_r.
  - unfold nonSpace. cbn [List.filter]. fold (nonSpace s).
    destruct (isSpace c) eqn:Ec; cbn [negb].
    + destruct inRun.
      * apply IH.
      * cbn [List.concat]. now rewrite IH.
    + rewrite IH. cbn [rev]. now rewrite <- app_assoc.
Qed.



Lemma splitSpacesFrom_word (w : str) :
  spaceFree w ->
  forall cur rest,
  splitSpacesFrom false cur (w ++ rest) = splitSpacesFrom false (rev w ++ cur) rest.
Proof.
  induction 1 as [|c w Hc Hw IH]; intros cur rest; [reflexivity|].
  cbn [app splitSpacesFrom]. rewrite Hc, IH. cbn [rev].
  now rewrite <- app_assoc.
Qed.

Lemma splitSpacesFrom_after_run (c : N) (s cur : str) :
  isSpace c = false ->
  splitSpacesFrom true cur (c :: s) = splitSpacesFrom false cur (c :: s).
Proof. intros Hc. cbn [splitSpacesFrom]. now rewrite Hc. Qed.

Lemma splitSpacesFrom_join (words : list str) :
  Forall (fun w => w <> [] /\ spaceFree w) words ->
  forall w cur, spaceFree w ->
  splitSpacesFrom false cur (join space (w :: words)) = (rev cur ++ w) :: words.
Proof.
  induction 1 as [|w2 words [Hne Hfree] Hrest IH]; intros w cur Hw.
  - cbn [join].
    pose proof (splitSpacesFrom_word w Hw cur []) as E.
    rewrite app_nil_r in E. rewrite E. cbn [splitSpacesFrom].
    now rewrite List.rev_app_distr, List.rev_involutive.
  - change (join space (w :: w2 :: words))
      with (w ++ space ++ join space (w2 :: words)).
    rewrite splitSpacesFrom_word by exact Hw.
    unfold space at 1. cbn [app splitSpacesFrom].
    change (isSpace 32) with true. cbv iota.
    rewrite List.rev_app_distr, List.rev_involutive. f_equal.
    destruct w2 as [|d w2']; [congruence|].
    rewrite join_head_tail. cbn [app].
    rewrite splitSpacesFrom_after_run by (now inversion Hfree).
    change (d :: w2' ++ joinTail space words)
      with ((d :: w2') ++ joinTail space words).
    rewrite <- join_head_tail.
    exact (IH (d :: w2') [] Hfree).
Qed.

Lemma nonSpace_spaceFree (w : str) : spaceFree w -> nonSpace w = w.
Proof.
  induction 1 as [|c w Hc Hw IH]; [reflexivity|].
  unfold nonSpace. cbn [List.filter]. rewrite Hc. cbn [negb].
  fold (nonSpace w). now rewrite IH.
Qed.

Lemma nonSpace_joinTail (words : list str) :
  Forall spaceFree words -> nonSpace (joinTail space words) = List.concat words.
Proof.
  induction 1 as [|w words Hw Hrest IH]; [reflexivity|].
  unfold joinTail. cbn [List.map List.concat]. fold (joinTail space words).
  rewrite !nonSpace_app, IH, (nonSpace_spaceFree w Hw). reflexivity.
Qed.

Lemma nonSpace_join (words : list str) :
  Forall spaceFree words -> nonSpace (join space words) = List.concat words.
Proof.
  destruct 1 as [|w words Hw Hrest]; [reflexivity|].
  rewrite join_head_tail, nonSpace_app, nonSpace_joinTail by exact Hrest.
  now rewrite (nonSpace_spaceFree w Hw).
Qed.

End WordFacts.

Section WordClaims.

(** Splitting at white space undoes a join with single spaces, for
    non-empty words without white space. *)
Lemma splitSpaces_join (words : list str) :
  words <> [] ->
  Forall (fun w => w <> [] /\ spaceFree w) words ->
  splitSpaces (join space words) = words.
Proof.
  intros Hne Hall. destruct words as [|w words]; [congruence|].
  inversion Hall as [|? ? [_ Hw] Hrest]; subst.
  unfold splitSpaces. now rewrite splitSpacesFrom_join.
Qed.

(** The words of a text have no white space in them and spell, one
    after the other, the text without its white space. *)
Lemma splitSpaces_words (s : str) :
  Forall spaceFree (splitSpaces s) /\
  List.concat (splitSpaces s) = nonSpace s.
Proof.
  split.
  - apply splitSpacesFrom_spaceFree. constructor.
  - unfold splitSpaces. now rewrite splitSpacesFrom_content.
Qed.

(** X5. The overlap text is made of trailing content of the previous
    chunk: without white space, it is a suffix of the previous chunk
    without white space. *)
Theorem getOverlapText_suffix (previousChunk : str) (overlapSize : Z) :
  suffix (nonSpace (getOverlapText previousChunk overlapSize))
         (nonSpace previousChunk).
Proof.
  unfold getOverlapText.
  destruct (negb (truthy previousChunk) || (overlapSize <=? 0)).
  - apply suffix_nil.
  - destruct (_ <=? overlapSize); [reflexivity|].
    set (words := splitSpaces previousChunk).
    set (k := (length words - Z.to_nat overlapSize)%nat).
    assert (Hfree : Forall spaceFree words)
      by (apply splitSpacesFrom_spaceFree; constructor).
    rewrite nonSpace_join.
    + exists (List.concat (firstn k words)).
      rewrite <- List.concat_app, firstn_skipn.
      unfold words, splitSpaces. now rewrite splitSpacesFrom_content.
    + rewrite <- (firstn_skipn k words) in Hfree.
      now apply Forall_app in Hfree as [_ H].
Qed.

(** X4. Of a chunk made of words with single spaces between them, the
    overlap text is the last [overlapSize] words, single spaces between
    them, when the chunk has more words than that. *)
Theorem getOverlapText_last_words (words : list str) (overlapSize : Z) :
  Forall (fun w => w <> [] /\ spaceFree w) words ->
  0 < overlapSize ->
  overlapSize < Z.of_nat (length words) ->
  getOverlapText (join space words) overlapSize =
  join space (skipn (length words - Z.to_nat overlapSize) words).
Proof.
  intros Hwords Hpos Hless.
  assert (Hne : words <> []) by (destruct words; [cbn in Hless; lia|discriminate]).
  unfold getOverlapText.
  rewrite (splitSpaces_join words Hne Hwords).
  replace (truthy (join space words)) with true.
  - replace (overlapSize <=? 0) with false by (symmetry; apply Z.leb_gt; lia).
    replace (Z.of_nat (length words) <=? overlapSize) with false
      by (symmetry; apply Z.leb_gt; lia).
    reflexivity.
  - destruct words as [|w rest]; [congruence|].
    inversion Hwords as [|? ? [Hw _] _]; subst.
    rewrite join_head_tail. destruct w; [congruence|reflexivity].
Qed.

End WordClaims.

Section MergeFacts.

Variable minSize : Z.

Lemma mergeSmallChunks_mergeWalk (acc : str) (rest : list str) :
  mergeSmallChunks (acc :: rest) minSize = mergeWalk minSize acc rest.
Proof.
  rewrite mergeSmallChunks_cons. revert acc.
  induction rest as [|next rest IH]; intros acc; [reflexivity|].
  cbn [fold_left mergeWalk]. unfold mergeStep at 2 4.
  destruct (len acc + len next <? minSize).
  - apply IH.
  - rewrite merge_loop_emitted. cbn [fst snd]. rewrite <- IH.
    now rewrite <- app_assoc.
Qed.

Lemma mergeWalk_head (rest : list str) :
  forall acc, exists first others,
    mergeWalk minSize acc rest = first :: others /\ len acc <= len first.
Proof.
  induction rest as [|next rest IH]; intros acc; cbn [mergeWalk].
  - exists acc, []. split; [reflexivity|lia].
  - destruct (len acc + len next <? minSize).
    + destruct (IH (acc ++ space ++ next)) as (first & others & E & Hlen).
      exists first, others. split; [exact E|].
      unfold len in *. rewrite length_app in Hlen. lia.
    + eexists _, _. split; [reflexivity|lia].
Qed.

Lemma mergeWalk_adjacent (rest : list str) :
  forall acc, adjacentAtLeast minSize (mergeWalk minSize acc rest).
Proof.
  induction rest as [|next rest IH]; intros acc; cbn [mergeWalk].
  - exact I.
  - destruct (len acc + len next <? minSize) eqn:E.
    + apply IH.
    + apply Z.ltb_ge in E.
      destruct (mergeWalk_head rest next) as (first & others & Ew & Hlen).
      specialize (IH next). rewrite Ew in *.
      cbn [adjacentAtLeast]. split; [lia|exact IH].
Qed.

Lemma mergeWalk_fixed (rest : list str) :
  forall acc, adjacentAtLeast minSize (acc :: rest) ->
  mergeWalk minSize acc rest = acc :: rest.
Proof.
  induction rest as [|next rest IH]; intros acc H; [reflexivity|].
  cbn [mergeWalk]. destruct H as [Hsum Hrest].
  replace (len acc + len next <? minSize) with false
    by (symmetry; apply Z.ltb_ge; lia).
  now rewrite IH.
Qed.

(** Every chunk that goes in is found again inside a chunk that comes out. *)
Lemma mergeWalk_keeps (rest : list str) :
  forall acc c, In c (acc :: rest) ->
  exists c', In c' (mergeWalk minSize acc rest) /\ occursIn c c'.
Proof.
  induction rest as [|next rest IH]; intros acc c Hin; cbn [mergeWalk].
  - destruct Hin as [<-|[]]. exists acc. split; [now left|].
    exists [], []. now rewrite app_nil_r.
  - destruct (len acc + len next <? minSize).
    + assert (Hc : occursIn c (acc ++ space ++ next) \/ In c rest).
      { destruct Hin as [<-|[<-|Hin]].
        - left. now exists [], (space ++ next).
        - left. exists (acc ++ space), []. now rewrite app_nil_r, <- app_assoc.
        - now right. }
      destruct Hc as [(p & q & E)|Hc].
      * destruct (IH (acc ++ space ++ next) _ (or_introl eq_refl))
          as (c' & Hin' & (p' & q' & E')).
        exists c'. split; [exact Hin'|].
        exists (p' ++ p), (q ++ q'). rewrite E', E. now rewrite <- !app_assoc.
      * apply (IH (acc ++ space ++ next) c). now right.
    + destruct Hin as [<-|Hin].
      * exists acc. split; [now left|]. exists [], []. now rewrite app_nil_r.
      * destruct (IH next c Hin) as (c' & Hin' & Hocc).
        exists c'. split; [now right|exact Hocc].
Qed.

End MergeFacts.

Section MergeClaims.

Variable minSize : Z.

(** X7. After the merge pass any two neighbouring chunks have at least
    [minSize] code units between them. *)
Theorem mergeSmallChunks_adjacent (chunks : list str) :
  adjacentAtLeast minSize (mergeSmallChunks chunks minSize).
Proof.
  destruct chunks as [|acc rest]; [exact I|].
  rewrite mergeSmallChunks_mergeWalk. apply mergeWalk_adjacent.
Qed.

(** X8. The merge pass changes nothing when it is run again on its own
    output. *)
Theorem mergeSmallChunks_idempotent (chunks : list str) :
  mergeSmallChunks (mergeSmallChunks chunks minSize) minSize =
  mergeSmallChunks chunks minSize.
Proof.
  destruct chunks as [|acc rest]; [reflexivity|].
  rewrite (mergeSmallChunks_mergeWalk minSize acc rest).
  pose proof (mergeWalk_adjacent minSize rest acc) as Hadj.
  destruct (mergeWalk minSize acc rest) as [|first others]; [reflexivity|].
  rewrite mergeSmallChunks_mergeWalk. now apply mergeWalk_fixed.
Qed.

End MergeClaims.

Section OverlapClaims.

(** X6. The overlap pass keeps the number of chunks and only prepends:
    chunk [i] comes out as a prefix followed by the chunk itself; the
    prefix is empty for the first chunk and for an overlap of 0 or less,
    and otherwise it is empty or the overlap text of the chunk before
    and a space. *)
Theorem addOverlap_prepends (overlap : Z) (chunks : list str) (i : nat) (c : str) :
  chunks !! i = Some c ->
  exists pre,
    addOverlap overlap chunks !! i = Some (pre ++ c) /\
    (i = 0%nat \/ overlap <= 0 -> pre = []) /\
    (pre = [] \/
     exists previous, chunks !! (i - 1)%nat = Some previous /\
       pre = getOverlapText previous overlap ++ space).
Proof.
  intros Hc. pose proof (lookup_lt_Some _ _ _ Hc) as Hlt.
  assert (Hnth : nth i chunks [] = c) by (now apply nth_lookup_Some).
  assert (E : addOverlap overlap chunks !! i = Some (withOverlap overlap chunks i)).
  { unfold addOverlap. rewrite list_lookup_fmap.
    rewrite lookup_seq_lt by exact Hlt. reflexivity. }
  rewrite E. unfold withOverlap. rewrite Hnth.
  destruct (0 <? i)%nat eqn:Ei; cbn [andb].
  - destruct (overlap >? 0) eqn:Eo.
    + destruct (truthy (getOverlapText (nth (i - 1) chunks []) overlap)) eqn:Et.
      * exists (getOverlapText (nth (i - 1) chunks []) overlap ++ space).
        split; [now rewrite <- app_assoc|]. split.
        -- apply Nat.ltb_lt in Ei. apply Z.gtb_lt in Eo. lia.
        -- right. exists (nth (i - 1) chunks []). split; [|reflexivity].
           apply Nat.ltb_lt in Ei.
           destruct (lookup_lt_is_Some_2 chunks (i - 1)%nat) as [p Hp]; [lia|].
           rewrite Hp. f_equal. symmetry. now apply nth_lookup_Some.
      * exists []. tauto.
    + exists []. tauto.
  - exists []. tauto.
Qed.

End OverlapClaims.

Section WordLoop.

Variables (minSize maxSize : Z).



End WordLoop.

Section SizeFacts.

Variables (targetSize overlap minSize maxSize : Z).

Local Abbreviation bigEnough := (fun c : str => minSize <= len c).

Lemma wordStep_bigEnough (chunks : list str) (temp word : str) :
  Forall bigEnough chunks ->
  Forall bigEnough (fst (wordStep minSize maxSize (chunks, temp) word)).
Proof.
  intros H. unfold wordStep.
  destruct (_ <=? maxSize); [exact H|].
  destruct (len temp >=? minSize) eqn:E; [|exact H].
  cbn [fst]. apply Forall_app. split; [exact H|].
  constructor; [|constructor]. apply Z.geb_le in E. lia.
Qed.

Lemma wordLoop_bigEnough (words : list str) :
  forall chunks temp, Forall bigEnough chunks ->
  Forall bigEnough (fst (fold_left (wordStep minSize maxSize) words (chunks, temp))).
Proof.
  induction words as [|w words IH]; intros chunks temp H; [exact H|].
  cbn [fold_left].
  pose proof (wordStep_bigEnough chunks temp w H) as H1.
  destruct (wordStep minSize maxSize (chunks, temp) w) as [chunks1 temp1].
  now apply IH.
Qed.

Lemma appendSentence_bigEnough (chunks : list str) (cur sentence : str) :
  Forall bigEnough chunks ->
  Forall bigEnough (fst (appendSentence targetSize minSize (chunks, cur) sentence)).
Proof.
  intros H. unfold appendSentence.
  destruct (_ <=? targetSize); [exact H|].
  destruct (len cur >=? minSize) eqn:E; [|exact H].
  cbn [fst]. apply Forall_app. split; [exact H|].
  constructor; [|constructor]. apply Z.geb_le in E. lia.
Qed.

Lemma sentenceStep_bigEnough (chunks : list str) (cur sentence : str) :
  Forall bigEnough chunks ->
  Forall bigEnough
    (fst (sentenceStep targetSize minSize maxSize (chunks, cur) sentence)).
Proof.
  intros H. unfold sentenceStep.
  pose proof (appendSentence_bigEnough chunks cur sentence H) as H1.
  destruct (appendSentence targetSize minSize (chunks, cur) sentence)
    as [chunks1 cur1]. cbn [fst] in H1.
  destruct (len cur1 >? maxSize); [|exact H1].
  destruct (len cur1 >=? minSize) eqn:E.
  - cbn [fst]. apply Forall_app. split; [exact H1|].
    constructor; [|constructor]. apply Z.geb_le in E. lia.
  - now apply wordLoop_bigEnough.
Qed.

Lemma sentenceLoop_bigEnough (sentences : list str) :
  forall chunks cur, Forall bigEnough chunks ->
  Forall bigEnough
    (fst (fold_left (sentenceStep targetSize minSize maxSize) sentences (chunks, cur))).
Proof.
  induction sentences as [|s sentences IH]; intros chunks cur H; [exact H|].
  cbn [fold_left].
  pose proof (sentenceStep_bigEnough chunks cur s H) as H1.
  destruct (sentenceStep targetSize minSize maxSize (chunks, cur) s)
    as [chunks1 cur1].
  now apply IH.
Qed.

Lemma flushRemaining_bigEnough (chunks : list str) (cur : str) :
  Forall bigEnough chunks ->
  Forall bigEnough (flushRemaining minSize chunks cur) \/
  length (flushRemaining minSize chunks cur) = 1%nat.
Proof.
  intros H. unfold flushRemaining.
  destruct (len cur >=? minSize) eqn:E.
  - left. apply Forall_app. split; [exact H|].
    constructor; [|constructor]. apply Z.geb_le in E. lia.
  - destruct chunks as [|c chunks]; [now right|].
    left. cbn [length Nat.ltb Nat.leb]. apply Forall_alter; [exact H|].
    intros x _ Hx. unfold len in *. rewrite length_app. lia.
Qed.

Lemma withOverlap_length (chunks : list str) (i : nat) :
  len (nth i chunks []) <= len (withOverlap overlap chunks i).
Proof.
  unfold withOverlap. cbv zeta. destruct (_ && _); [|lia].
  destruct (truthy _); [|lia].
  unfold len. rewrite !length_app. lia.
Qed.

Lemma addOverlap_bigEnough (chunks : list str) :
  Forall bigEnough chunks -> Forall bigEnough (addOverlap overlap chunks).
Proof.
  intros H. unfold addOverlap. apply List.Forall_forall. intros x Hx.
  apply List.in_map_iff in Hx as (i & <- & Hi).
  apply List.in_seq in Hi. pose proof (withOverlap_length chunks i) as Hlen.
  rewrite List.Forall_forall in H.
  specialize (H (nth i chunks [])  (nth_In _ _ (proj2 Hi))). cbn in H. lia.
Qed.

Lemma bigEnough_adjacent (chunks : list str) :
  Forall bigEnough chunks -> adjacentAtLeast minSize chunks.
Proof.
  induction 1 as [|a chunks Ha Hrest IH]; [exact I|].
  destruct chunks as [|b chunks]; [exact I|].
  cbn [adjacentAtLeast]. split; [|exact IH]. unfold len in *. lia.
Qed.

Lemma mergeSmallChunks_bigEnough (chunks : list str) :
  Forall bigEnough chunks -> mergeSmallChunks chunks minSize = chunks.
Proof.
  intros H. destruct chunks as [|a rest]; [reflexivity|].
  rewrite mergeSmallChunks_mergeWalk.
  apply mergeWalk_fixed. now apply bigEnough_adjacent.
Qed.

End SizeFacts.

Section SizeClaims.

(** X10. Every chunk that [chunkText] returns has at least [minSize] code
    units, unless it returns a single chunk. *)
Theorem chunkText_minSize (text : str) (targetSize overlap minSize maxSize : Z) :
  Forall (fun c => minSize <= len c)
    (chunkText text targetSize overlap minSize maxSize) \/
  length (chunkText text targetSize overlap minSize maxSize) = 1%nat.
Proof.
  unfold chunkText.
  destruct (len text <=? targetSize); [now right|].
  pose proof (sentenceLoop_bigEnough targetSize minSize maxSize
                (splitIntoSentences text) [] [] ltac:(constructor)) as Hloop.
  destruct (fold_left _ _ _) as [chunks cur]. cbn [fst] in Hloop.
  destruct (flushRemaining_bigEnough minSize chunks cur Hloop) as [Hall|Hone].
  - left. apply (addOverlap_bigEnough overlap) in Hall.
    now rewrite mergeSmallChunks_bigEnough.
  - right. rewrite <- (addOverlap_length overlap) in Hone.
    destruct (addOverlap overlap _) as [|c [|d rest]]; try discriminate.
    reflexivity.
Qed.

End SizeClaims.

Section CoverFacts.

Lemma occursIn_refl (s : str) : occursIn s s.
Proof. exists [], []. now rewrite app_nil_r. Qed.

Lemma occursIn_trans (a b c : str) : occursIn a b -> occursIn b c -> occursIn a c.
Proof.
  intros (p & q & ->) (p' & q' & ->).
  exists (p' ++ p), (q ++ q'). now rewrite <- !app_assoc.
Qed.

Lemma occursIn_app_l (a b c : str) : occursIn a b -> occursIn a (b ++ c).
Proof.
  intros (p & q & ->). exists p, (q ++ c). now rewrite <- !app_assoc.
Qed.

Lemma occursIn_app_r (a b c : str) : occursIn a c -> occursIn a (b ++ c).
Proof.
  intros (p & q & ->). exists (b ++ p), q. now rewrite <- !app_assoc.
Qed.

Lemma covers_keepsAll (earlier later : list str) (part : str) :
  keepsAll earlier later -> covers earlier part -> covers later part.
Proof.
  intros H (c & Hin & Hocc). destruct (H c Hin) as (c' & Hin' & Hocc').
  exists c'. split; [exact Hin'|]. now apply (occursIn_trans part c c').
Qed.

Lemma covers_here (chunks : list str) (c : str) : In c chunks -> covers chunks c.
Proof. intros H. exists c. split; [exact H|apply occursIn_refl]. Qed.

Lemma keepsAll_snoc_grow (chunks : list str) (cur extra : str) :
  keepsAll (chunks ++ [cur]) (chunks ++ [cur ++ extra]).
Proof.
  intros c Hin. apply in_app_or in Hin as [Hin|[<-|[]]].
  - apply covers_here. apply in_or_app. now left.
  - exists (cur ++ extra). split; [apply in_or_app; right; now left|].
    apply occursIn_app_l, occursIn_refl.
Qed.

Lemma keepsAll_snoc_more (chunks : list str) (cur next : str) :
  keepsAll (chunks ++ [cur]) ((chunks ++ [cur]) ++ [next]).
Proof. intros c Hin. apply covers_here. apply in_or_app. now left. Qed.

Variables (targetSize overlap minSize maxSize : Z).

Lemma appendSentence_keeps (chunks : list str) (cur sentence : str) :
  let st := appendSentence targetSize minSize (chunks, cur) sentence in
  keepsAll (chunks ++ [cur]) (fst st ++ [snd st]) /\
  covers (fst st ++ [snd st]) sentence.
Proof.
  unfold appendSentence.
  assert (Hgrow :
    keepsAll (chunks ++ [cur])
      (chunks ++ [cur ++ (if truthy cur then space else []) ++ sentence]) /\
    covers (chunks ++ [cur ++ (if truthy cur then space else []) ++ sentence])
      sentence).
  { split; [apply keepsAll_snoc_grow|].
    eexists. split; [apply in_or_app; right; now left|].
    apply occursIn_app_r, occursIn_app_r, occursIn_refl. }
  destruct (_ <=? targetSize); [exact Hgrow|].
  destruct (len cur >=? minSize); [|exact Hgrow].
  cbn [fst snd]. split; [apply keepsAll_snoc_more|].
  apply covers_here. apply in_or_app. right. now left.
Qed.

Lemma sentenceStep_keeps (chunks : list str) (cur sentence : str) :
  minSize <= maxSize ->
  let st := sentenceStep targetSize minSize maxSize (chunks, cur) sentence in
  keepsAll (chunks ++ [cur]) (fst st ++ [snd st]) /\
  covers (fst st ++ [snd st]) sentence.
Proof.
  intros Hle. cbv zeta. rewrite sentenceStep_forced_split by exact Hle.
  destruct (appendSentence_keeps chunks cur sentence) as [Hk Hc].
  destruct (appendSentence targetSize minSize (chunks, cur) sentence)
    as [chunks1 cur1]. cbn [fst snd] in *.
  destruct (len cur1 >? maxSize); [|now split].
  cbn [fst snd]. split.
  - intros c Hin. destruct (Hk c Hin) as (c' & Hin' & Hocc).
    exists c'. split; [apply in_or_app; now left|exact Hocc].
  - apply covers_here. apply in_or_app. right. now left.
Qed.

Lemma sentenceLoop_keeps (sentences : list str) :
  minSize <= maxSize ->
  forall chunks cur,
  let st := fold_left (sentenceStep targetSize minSize maxSize) sentences
              (chunks, cur) in
  keepsAll (chunks ++ [cur]) (fst st ++ [snd st]) /\
  forall s, In s sentences -> covers (fst st ++ [snd st]) s.
Proof.
  intros Hle. induction sentences as [|s sentences IH]; intros chunks cur.
  - cbn. split; [intros c Hin; now apply covers_here|intros s []].
  - cbn [fold_left].
    destruct (sentenceStep_keeps chunks cur s Hle) as [Hk Hc].
    destruct (sentenceStep targetSize minSize maxSize (chunks, cur) s)
      as [chunks1 cur1]. cbn [fst snd] in *.
    destruct (IH chunks1 cur1) as [Hk' Hall]. cbv zeta in *.
    split.
    + intros c Hin. apply (covers_keepsAll _ _ c Hk'). now apply Hk.
    + intros s' [<-|Hin]; [|now apply Hall].
      now apply (covers_keepsAll _ _ s Hk').
Qed.

Lemma flushRemaining_keeps (chunks : list str) (cur : str) :
  keepsAll (chunks ++ [cur]) (flushRemaining minSize chunks cur).
Proof.
  unfold flushRemaining.
  destruct (len cur >=? minSize); [intros c Hin; now apply covers_here|].
  destruct chunks as [|c0 chunks] using rev_ind;
    [intros c Hin; now apply covers_here|].
  clear IHchunks. rewrite length_app. cbn [length].
  replace (0 <? length chunks + 1)%nat with true
    by (symmetry; apply Nat.ltb_lt; lia).
  replace (length chunks + 1 - 1)%nat with (length chunks + 0)%nat by lia.
  rewrite alter_app_r.
  change (alter (fun l : str => l ++ space ++ cur) 0%nat [c0])
    with [c0 ++ space ++ cur].
  intros c Hin. apply in_app_or in Hin as [Hin|[<-|[]]].
  - apply in_app_or in Hin as [Hin|[<-|[]]].
    + apply covers_here. apply in_or_app. now left.
    + eexists. split; [apply in_or_app; right; now left|].
      apply occursIn_app_l, occursIn_refl.
  - eexists. split; [apply in_or_app; right; now left|].
    apply occursIn_app_r, occursIn_app_r, occursIn_refl.
Qed.

Lemma withOverlap_ends (chunks : list str) (i : nat) :
  occursIn (nth i chunks []) (withOverlap overlap chunks i).
Proof.
  unfold withOverlap. cbv zeta.
  destruct (_ && _); [|apply occursIn_refl].
  destruct (truthy _); [|apply occursIn_refl].
  apply occursIn_app_r, occursIn_app_r, occursIn_refl.
Qed.

Lemma addOverlap_keeps (chunks : list str) :
  keepsAll chunks (addOverlap overlap chunks).
Proof.
  intros c Hin. apply (In_nth _ _ []) in Hin as (i & Hi & <-).
  exists (withOverlap overlap chunks i). split; [|apply withOverlap_ends].
  unfold addOverlap. apply List.in_map. apply List.in_seq. lia.
Qed.

Lemma mergeSmallChunks_keeps (chunks : list str) :
  keepsAll chunks (mergeSmallChunks chunks minSize).
Proof.
  destruct chunks as [|acc rest]; [intros c []|].
  rewrite mergeSmallChunks_mergeWalk. intros c Hin.
  now apply mergeWalk_keeps.
Qed.

Lemma trimStart_occurs (s : str) : occursIn (trimStart s) s.
Proof.
  induction s as [|c s IH]; cbn [trimStart]; [apply occursIn_refl|].
  destruct (isSpace c); [|apply occursIn_refl].
  apply (occursIn_app_r _ [c] s), IH.
Qed.

Lemma trim_occurs (s : str) : occursIn (trim s) s.
Proof.
  unfold trim, trimEnd.
  apply (occursIn_trans _ (trimStart s)); [|apply trimStart_occurs].
  destruct (trimStart_occurs (rev (trimStart s))) as (p & q & E).
  exists (rev q), (rev p).
  apply (f_equal (@rev N)) in E.
  rewrite List.rev_involutive, !List.rev_app_distr, <- app_assoc in E.
  exact E.
Qed.

Lemma splitSentencesFrom_occurs (s : str) :
  forall afterEnd inRun cur piece,
  (inRun = true -> cur = []) ->
  In piece (splitSentencesFrom afterEnd inRun cur s) ->
  occursIn piece (rev cur ++ s).
Proof.
  induction s as [|c s IH]; intros afterEnd inRun cur piece Hrun;
    cbn [splitSentencesFrom].
  - intros [<-|[]]. rewrite app_nil_r. apply occursIn_refl.
  - assert (Hskip : forall a, In piece (splitSentencesFrom a true [] s) ->
                    occursIn piece (rev cur ++ c :: s)).
    { intros a Hin. apply (IH a true [] piece (fun _ => eq_refl)) in Hin.
      cbn [rev app] in Hin.
      apply occursIn_app_r. now apply (occursIn_app_r _ [c] s). }
    assert (Hgo : forall a, In piece (splitSentencesFrom a false (c :: cur) s) ->
                  occursIn piece (rev cur ++ c :: s)).
    { intros a Hin. apply (IH a false (c :: cur) piece) in Hin; [|discriminate].
      cbn [rev] in Hin. now rewrite <- app_assoc in Hin. }
    destruct (isSpace c); [|apply Hgo].
    destruct inRun; [|destruct afterEnd; [|apply Hgo]].
    + specialize (Hrun eq_refl). subst cur. apply Hskip.
    + intros [<-|Hin]; [apply occursIn_app_l, occursIn_refl|now apply (Hskip false)].
Qed.

End CoverFacts.

Section CoverClaims.

(** X11. With [minSize <= maxSize] no sentence is dropped: every sentence
    of the text is found, as it stands, inside one of the chunks. *)
Theorem chunkText_keeps_sentences (text : str)
    (targetSize overlap minSize maxSize : Z) (sentence : str) :
  minSize <= maxSize ->
  In sentence (splitIntoSentences text) ->
  exists chunk,
    In chunk (chunkText text targetSize overlap minSize maxSize) /\
    occursIn sentence chunk.
Proof.
  intros Hle Hin. unfold chunkText.
  destruct (len text <=? targetSize).
  - exists text. split; [now left|].
    unfold splitIntoSentences in Hin.
    apply List.filter_In in Hin as [Hin _].
    apply List.in_map_iff in Hin as (piece & <- & Hin).
    apply (occursIn_trans _ piece); [apply trim_occurs|].
    now apply (splitSentencesFrom_occurs text false false [] piece).
  - destruct (sentenceLoop_keeps targetSize minSize maxSize
                (splitIntoSentences text) Hle [] []) as [_ Hall].
    destruct (fold_left _ _ _) as [chunks cur]. cbn [fst snd] in Hall.
    apply (covers_keepsAll _ _ _ (mergeSmallChunks_keeps minSize _)).
    apply (covers_keepsAll _ _ _ (addOverlap_keeps overlap _)).
    apply (covers_keepsAll _ _ _ (flushRemaining_keeps minSize chunks cur)).
    now apply Hall.
Qed.

End CoverClaims.

(** * Further properties of the indexer *)

Section TraceFacts.

Context {vector row world : Type} {B : Backend vector row world}.

Implicit Types (s : state vector world) (evs : list (event vector)).

Lemma upsertAttempts_app evs1 evs2 :
  upsertAttempts (evs1 ++ evs2) = upsertAttempts evs1 ++ upsertAttempts evs2.
Proof. apply flat_map_app. Qed.

Lemma embeddedTexts_app evs1 evs2 :
  embeddedTexts (evs1 ++ evs2) = embeddedTexts evs1 ++ embeddedTexts evs2.
Proof. apply flat_map_app. Qed.

Lemma documentUpserts_app evs1 evs2 :
  documentUpserts (evs1 ++ evs2) = documentUpserts evs1 ++ documentUpserts evs2.
Proof. apply flat_map_app. Qed.

Lemma rowFailures_app evs1 evs2 :
  rowFailures (evs1 ++ evs2) = rowFailures evs1 ++ rowFailures evs2.
Proof. apply flat_map_app. Qed.

Lemma failedEmbeddings_app evs1 evs2 :
  failedEmbeddings (evs1 ++ evs2) = failedEmbeddings evs1 ++ failedEmbeddings evs2.
Proof. apply flat_map_app. Qed.

Lemma accounted_refl s : accounted s s [].
Proof. unfold accounted. cbn. rewrite app_nil_r. repeat split; lia. Qed.

Lemma accounted_trans s1 s2 s3 evs1 evs2 :
  accounted s1 s2 evs1 -> accounted s2 s3 evs2 -> accounted s1 s3 (evs1 ++ evs2).
Proof.
  intros (E1 & R1 & Er1 & Em1 & C1 & D1) (E2 & R2 & Er2 & Em2 & C2 & D2).
  unfold accounted.
  rewrite rowFailures_app, failedEmbeddings_app, embeddedTexts_app,
    upsertAttempts_app, documentUpserts_app, !length_app, R1, R2, E2, E1.
  rewrite <- app_assoc. repeat split; lia.
Qed.

(** One chunk, whatever the store and the provider do. *)
Lemma processChunk_outcome mode documentId chunkIndex chunkContent s :
  exists evs,
    accounted s (snd (processChunk mode documentId chunkIndex chunkContent s)) evs /\
    documentUpserts evs = [] /\
    match fst (processChunk mode documentId chunkIndex chunkContent s) with
    | Ok _ =>
        upsertAttempts evs = [(documentId, chunkIndex, chunkContent)] /\
        chunksCreated (stats (snd (processChunk mode documentId chunkIndex
                                     chunkContent s))) =
          S (chunksCreated (stats s)) /\
        (mode <> ReembedNone -> embeddedTexts evs = [chunkContent])
    | Throw =>
        (upsertAttempts evs = [] \/
         upsertAttempts evs = [(documentId, chunkIndex, chunkContent)]) /\
        chunksCreated (stats (snd (processChunk mode documentId chunkIndex
                                     chunkContent s))) =
          chunksCreated (stats s)
    end.
Proof.
  unfold processChunk, resolveEmbedding, bind, call, tryCatch, report,
    updateStats, ret.
  destruct (getChunk documentId chunkIndex (ext s)) as [[existing|] w1];
    cbn [ext stats events fst snd].
  2:{ eexists [_]. unfold accounted. cbn. repeat split; cbn; first [lia | tauto | congruence | now intros]. }
  destruct (shouldEmbed mode existing) eqn:Hdec; cbn [ext stats events fst snd].
  - destruct (embed chunkContent w1) as [[v|] w2]; cbn [ext stats events fst snd].
    + destruct (upsertChunk documentId chunkIndex chunkContent (Some v) w2)
        as [[id|] w3]; cbn [ext stats events fst snd];
        rewrite <- !app_assoc; eexists; unfold accounted; cbn;
        repeat split; cbn; first [lia | tauto | congruence | now intros].
    + destruct (upsertChunk documentId chunkIndex chunkContent None w2)
        as [[id|] w3]; cbn [ext stats events fst snd];
        rewrite <- !app_assoc; eexists; unfold accounted; cbn;
        repeat split; cbn; first [lia | tauto | congruence | now intros].
  - assert (Hnone : mode = ReembedNone)
      by (destruct mode; [reflexivity|discriminate|discriminate]).
    destruct (storedEmbedding existing) as [v|]; cbn [ext stats events fst snd].
    + destruct (upsertChunk documentId chunkIndex chunkContent (Some v) w1)
        as [[id|] w3]; cbn [ext stats events fst snd];
        rewrite <- !app_assoc; eexists; unfold accounted; cbn;
        repeat split; cbn; first [lia | tauto | congruence | now intros].
    + destruct (upsertChunk documentId chunkIndex chunkContent None w1)
        as [[id|] w3]; cbn [ext stats events fst snd];
        rewrite <- !app_assoc; eexists; unfold accounted; cbn;
        repeat split; cbn; first [lia | tauto | congruence | now intros].
Qed.

(** The loop over the chunks: the chunk upserts called are those of the
    first [k] chunks, each at its own position and in order. *)
Lemma processChunks_outcome mode documentId chunks :
  forall first s,
  exists evs k,
    accounted s (snd (processChunks mode documentId first chunks s)) evs /\
    documentUpserts evs = [] /\
    (k <= length chunks)%nat /\
    upsertAttempts evs = indexed documentId first (firstn k chunks) /\
    (fst (processChunks mode documentId first chunks s) = Ok tt ->
     k = length chunks /\
     chunksCreated (stats (snd (processChunks mode documentId first chunks s))) =
       (chunksCreated (stats s) + length chunks)%nat /\
     (mode <> ReembedNone -> embeddedTexts evs = chunks)).
Proof.
  induction chunks as [|c rest IH]; intros first s.
  - exists [], 0%nat. cbn. split; [apply accounted_refl|].
    repeat split; lia.
  - cbn [processChunks]. unfold bind.
    destruct (processChunk_outcome mode documentId first c s)
      as (evs1 & Hacc1 & Hdoc1 & Hres1).
    destruct (processChunk mode documentId first c s) as [[[]|] s1];
      cbn [fst snd] in *.
    + destruct Hres1 as (Hup1 & Hcnt1 & Hemb1).
      destruct (IH (S first) s1) as (evs2 & k & Hacc2 & Hdoc2 & Hk & Hup2 & Hok).
      exists (evs1 ++ evs2), (S k).
      split; [now apply (accounted_trans s s1)|].
      rewrite documentUpserts_app, upsertAttempts_app, embeddedTexts_app,
        Hdoc1, Hdoc2, Hup1, Hup2.
      cbn [length firstn indexed app].
      split; [reflexivity|]. split; [lia|]. split; [reflexivity|].
      intros E. destruct (Hok E) as (-> & Hc & He).
      split; [reflexivity|]. split; [lia|].
      intros Hmode. now rewrite (Hemb1 Hmode), (He Hmode).
    + destruct Hres1 as ([Hup1|Hup1] & Hcnt1).
      * exists evs1, 0%nat. rewrite Hup1. cbn [length firstn indexed].
        split; [exact Hacc1|]. split; [exact Hdoc1|]. split; [lia|].
        split; [reflexivity|]. intros [=].
      * exists evs1, 1%nat. rewrite Hup1. cbn [length firstn indexed].
        split; [exact Hacc1|]. split; [exact Hdoc1|]. split; [lia|].
        split; [reflexivity|]. intros [=].
Qed.

(** A row: the statistics stay in step with the trace, and the chunk
    upserts called are those of the first chunks of the document. *)
Ltac accounted_by_trace :=
  unfold accounted; cbn [ext stats events]; rewrite <- ?app_assoc;
  split; [reflexivity|]; cbn; repeat split; lia.

Lemma processRow_outcome mode tableName (r : row) s :
  exists evs,
    accounted s (snd (processRow mode tableName r s)) evs /\
    (forall doc, transformRowToDocument tableName r = Ok doc ->
     exists documentId k,
       upsertAttempts evs =
         indexed documentId 0
           (firstn k (chunkText (content doc) 1200 200 800 1500)) /\
       (fst (processRow mode tableName r s) = Ok tt ->
        documentUpserts evs = [] /\ k = 0%nat \/
        documentUpserts evs = [doc] /\
        k = length (chunkText (content doc) 1200 200 800 1500))).
Proof.
  unfold processRow, bind, lift.
  destruct (transformRowToDocument tableName r) as [doc|].
  2:{ exists []. split; [apply accounted_refl|]. intros doc [=]. }
  destruct (_ || _).
  { exists []. split; [apply accounted_refl|]. intros ? [= <-].
    exists [], 0%nat. cbn. tauto. }
  unfold call.
  destruct (getDocumentHash _ _ (ext s)) as [[existingHash|] w1];
    cbn [ext stats events].
  2:{ eexists [_]. split.
      - accounted_by_trace.
      - intros ? [= <-]. exists [], 0%nat. cbn. split; [reflexivity|intros [=]]. }
  destruct (_ && _).
  { eexists [_]. split.
    - accounted_by_trace.
    - intros ? [= <-]. exists [], 0%nat. cbn. tauto. }
  cbn [ext stats events].
  destruct (upsertDocument doc (generateContentHash (content doc)) w1)
    as [[documentId|] w2];
    cbn [ext stats events].
  2:{ eexists [_; _]. split.
      - accounted_by_trace.
      - intros ? [= <-]. exists [], 0%nat. cbn. split; [reflexivity|intros [=]]. }
  unfold updateStats. cbn [ext stats events].
  set (s2 := Build_state w2 (incDocumentsProcessed (stats s))
               ((events s ++ [EvGetDocumentHash (source_table doc) (source_id doc)]) ++
                [EvUpsertDocument doc (generateContentHash (content doc))])).
  destruct (processChunks_outcome mode documentId
              (chunkText (content doc) 1200 200 800 1500) 0%nat s2)
    as (evs & k & Hacc & Hdoc & Hk & Hup & Hok).
  exists ([EvGetDocumentHash (source_table doc) (source_id doc);
           EvUpsertDocument doc (generateContentHash (content doc))] ++ evs).
  split.
  - apply (accounted_trans s s2); [|exact Hacc].
    unfold s2. accounted_by_trace.
  - intros ? [= <-]. exists documentId, k.
    rewrite upsertAttempts_app, documentUpserts_app, Hdoc, Hup. cbn.
    split; [reflexivity|]. intros E. right. split; [reflexivity|].
    now destruct (Hok E).
Qed.

End TraceFacts.

Section BatchFacts.

Context {vector row world : Type} {B : Backend vector row world}.

Implicit Types (s : state vector world) (evs : list (event vector)).

Lemma batchAccounted_refl s : batchAccounted s s [].
Proof. unfold batchAccounted. cbn. rewrite app_nil_r. repeat split; lia. Qed.

Lemma batchAccounted_trans s1 s2 s3 evs1 evs2 :
  batchAccounted s1 s2 evs1 -> batchAccounted s2 s3 evs2 ->
  batchAccounted s1 s3 (evs1 ++ evs2).
Proof.
  intros (E1 & Er1 & Em1 & C1 & D1) (E2 & Er2 & Em2 & C2 & D2).
  unfold batchAccounted.
  rewrite rowFailures_app, failedEmbeddings_app, embeddedTexts_app,
    upsertAttempts_app, documentUpserts_app, !length_app, E2, E1.
  rewrite <- app_assoc. repeat split; lia.
Qed.

Lemma accounted_batchAccounted s s' evs :
  accounted s s' evs -> batchAccounted s s' evs.
Proof.
  intros (E & R & Er & Em & C & D). unfold batchAccounted.
  rewrite R. cbn. repeat split; (exact E || lia).
Qed.

Lemma processBatch_outcome mode tableName (rows : list row) :
  forall s, exists s' evs,
    processBatch mode tableName rows s = (Ok tt, s') /\
    batchAccounted s s' evs /\
    (length (rowFailures evs) <= length rows)%nat.
Proof.
  induction rows as [|r rest IH]; intros s.
  - exists s, []. split; [reflexivity|]. split; [apply batchAccounted_refl|].
    cbn. lia.
  - cbn [processBatch]. unfold bind at 1, tryCatch.
    destruct (processRow_outcome mode tableName r s) as (evs1 & Hacc & _).
    pose proof Hacc as (_ & Hnone & _).
    apply accounted_batchAccounted in Hacc.
    destruct (processRow mode tableName r s) as [[[]|] s1]; cbn [snd] in Hacc.
    + destruct (IH s1) as (s' & evs2 & E & Hb & Hn).
      exists s', (evs1 ++ evs2). split; [exact E|].
      split; [now apply (batchAccounted_trans s s1)|].
      rewrite rowFailures_app, length_app, Hnone. cbn [length]. lia.
    + unfold bind, report, updateStats. cbn [ext stats events].
      set (caught := Build_state (ext s1) (incErrors (stats s1))
                       (events s1 ++ [EvRowFailed])).
      assert (Hcaught : batchAccounted s1 caught [EvRowFailed]).
      { unfold batchAccounted, caught. cbn. repeat split; lia. }
      destruct (IH caught) as (s' & evs2 & E & Hb & Hn).
      exists s', ((evs1 ++ [EvRowFailed]) ++ evs2). split; [exact E|].
      split.
      * apply (batchAccounted_trans s caught); [|exact Hb].
        now apply (batchAccounted_trans s s1).
      * rewrite !rowFailures_app, !length_app, Hnone. cbn. lia.
Qed.

Lemma processBatch_cons mode tableName (r : row) (rest : list row) s :
  processBatch mode tableName (r :: rest) s =
  processBatch mode tableName rest (snd (processBatch mode tableName [r] s)).
Proof.
  cbn [processBatch]. unfold bind, tryCatch, report, updateStats, ret.
  now destruct (processRow mode tableName r s) as [[[]|] s1].
Qed.

(** A batch in two parts is the first part and then the second. *)
Lemma processBatch_app mode tableName (rows1 rows2 : list row) s :
  processBatch mode tableName (rows1 ++ rows2) s =
  processBatch mode tableName rows2 (snd (processBatch mode tableName rows1 s)).
Proof.
  revert s. induction rows1 as [|r rest IH]; intros s; [reflexivity|].
  cbn [app]. rewrite processBatch_cons, IH.
  now rewrite (processBatch_cons mode tableName r rest s).
Qed.

End BatchFacts.

Section PageFacts.

Context {vector row world : Type} {B : Backend vector row world}
        {R : RowSource row world}.

Implicit Types (s : state vector world) (evs : list (event vector)).

(** With a table that does not change while it is read, the rows from
    [offset] on are processed as one batch. *)
Lemma processPages_static mode tableName (table : list row) (limit : nat) :
  (forall lim off w,
     fetchTableRows tableName lim off w = (Ok (firstn lim (skipn off table)), w)) ->
  (0 < limit)%nat ->
  forall fuel offset s,
  (length (skipn offset table) < fuel)%nat ->
  processPages fuel mode tableName limit offset s =
  (Ok true, snd (processBatch mode tableName (skipn offset table) s)).
Proof.
  intros Hfetch Hlimit.
  induction fuel as [|fuel IH]; intros offset s Hfuel; [lia|].
  cbn [processPages]. unfold bind at 1, fetchPage.
  rewrite Hfetch. destruct s as [w st ev]. cbn [ext stats events].
  set (s := Build_state w st ev) in *.
  set (remaining := skipn offset table) in *.
  destruct (length (firstn limit remaining) =? 0)%nat eqn:Eempty.
  - apply Nat.eqb_eq in Eempty. rewrite length_firstn in Eempty.
    assert (remaining = []) as -> by (destruct remaining; [reflexivity|cbn in *; lia]).
    reflexivity.
  - destruct (processBatch_returns mode tableName (firstn limit remaining) s)
      as (s1 & E1).
    rewrite (bind_ok _ _ _ _ _ E1).
    destruct (length (firstn limit remaining) <? limit)%nat eqn:Elast.
    + apply Nat.ltb_lt in Elast. rewrite length_firstn in Elast.
      rewrite firstn_all2 in E1 by lia. now rewrite E1.
    + apply Nat.ltb_ge in Elast. rewrite length_firstn in *.
      assert (Hlen : (limit <= length remaining)%nat) by lia.
      replace (Init.Nat.min limit (length remaining)) with limit by lia.
      rewrite IH.
      * rewrite <- (firstn_skipn limit remaining) at 1.
        rewrite processBatch_app, E1. cbn [snd]. unfold remaining.
        now rewrite skipn_skipn, (Nat.add_comm limit offset).
      * rewrite <- (Nat.add_comm limit offset), <- skipn_skipn. fold remaining.
        rewrite length_skipn. lia.
Qed.

Lemma processPages_outcome mode tableName (limit : nat) :
  forall fuel offset s,
  exists evs,
    batchAccounted s (snd (processPages fuel mode tableName limit offset s)) evs.
Proof.
  induction fuel as [|fuel IH]; intros offset s.
  - exists []. apply batchAccounted_refl.
  - cbn [processPages]. unfold bind at 1, fetchPage.
    destruct (fetchTableRows tableName limit offset (ext s)) as [[rows|] w].
    2:{ exists []. unfold batchAccounted. cbn. rewrite app_nil_r.
        repeat split; lia. }
    set (s0 := Build_state w (stats s) (events s)).
    assert (H0 : batchAccounted s s0 []).
    { unfold batchAccounted, s0. cbn. rewrite app_nil_r. repeat split; lia. }
    destruct (length rows =? 0)%nat.
    { exists []. exact H0. }
    destruct (processBatch_outcome mode tableName rows s0)
      as (s1 & evs1 & E1 & Hb1 & _).
    rewrite (bind_ok _ _ _ _ _ E1).
    destruct (length rows <? limit)%nat.
    { exists ([] ++ evs1). now apply (batchAccounted_trans s s0). }
    destruct (IH (offset + length rows)%nat s1) as (evs2 & Hb2).
    exists (([] ++ evs1) ++ evs2).
    apply (batchAccounted_trans s s1); [|exact Hb2].
    now apply (batchAccounted_trans s s0).
Qed.

End PageFacts.

Section TableClaims.

Context {vector row world : Type} {B : Backend vector row world}
        {R : RowSource row world}.

Implicit Types (s : state vector world) (evs : list (event vector)).

(** X16. [processTable] never throws, whatever the source, the store and
    the provider do.  Its statistics start from zero and end in step
    with its trace: one error per reported row failure and at most one
    more (the failure of a fetch), [embeddingsWritten] the number of
    provider calls that did not fail, [chunksCreated] and
    [documentsProcessed] no more than the upserts called. *)
Theorem processTable_returns fuel mode tableName (limit offset : nat) s :
  exists finished s' evs,
    processTable fuel mode tableName limit offset s = (Ok finished, s') /\
    events s' = events s ++ evs /\
    (length (rowFailures evs) <= errors (stats s')
     <= length (rowFailures evs) + 1)%nat /\
    (embeddingsWritten (stats s') + length (failedEmbeddings evs) =
     length (embeddedTexts evs))%nat /\
    (chunksCreated (stats s') <= length (upsertAttempts evs))%nat /\
    (documentsProcessed (stats s') <= length (documentUpserts evs))%nat.
Proof.
  unfold processTable, tryCatch.
  destruct (processPages_outcome mode tableName limit fuel offset
              (Build_state (ext s) freshStats (events s)))
    as (evs & E & Herr & Hemb & Hch & Hdoc).
  destruct (processPages fuel mode tableName limit offset _)
    as [[finished|] s1]; cbn [snd ext stats events freshStats errors
      embeddingsWritten chunksCreated documentsProcessed] in *.
  - exists finished, s1, evs. repeat split; (exact E || lia).
  - unfold bind, updateStats, ret. cbn [ext stats events].
    exists true, (Build_state (ext s1) (incErrors (stats s1)) (events s1)), evs.
    cbn. repeat split; (exact E || lia).
Qed.

(** X17. With a table that does not change while it is read and a page
    size above zero, processTable processes the rows from [offset] on,
    each once and in the order of the table, as one batch on fresh
    statistics, and its loop ends within as many turns as there are such
    rows, and one. *)
Theorem processTable_static fuel mode tableName (table : list row)
    (limit offset : nat) s :
  (forall lim off w,
     fetchTableRows tableName lim off w = (Ok (firstn lim (skipn off table)), w)) ->
  (0 < limit)%nat ->
  (length (skipn offset table) < fuel)%nat ->
  processTable fuel mode tableName limit offset s =
  (Ok true,
   snd (processBatch mode tableName (skipn offset table)
          (Build_state (ext s) freshStats (events s)))).
Proof.
  intros Hfetch Hlimit Hfuel. unfold processTable, tryCatch.
  now rewrite (processPages_static mode tableName table limit Hfetch Hlimit).
Qed.

End TableClaims.

Section MapperFacts.

Lemma firstTruthy_nonempty (row : RawRow) (names : list string) (text : str) :
  firstTruthy row names = Some text ->
  text <> [] /\ exists name, In name names /\ column row name = Some text.
Proof.
  induction names as [|name rest IH]; cbn [firstTruthy]; [discriminate|].
  destruct (column row name) as [t|] eqn:E.
  - destruct t as [|c t]; cbn [truthy].
    + intros H. destruct (IH H) as (Hne & n & Hin & Hcol).
      split; [exact Hne|]. exists n. split; [now right|exact Hcol].
    + intros [= <-]. split; [discriminate|]. exists name. split; [now left|exact E].
  - intros H. destruct (IH H) as (Hne & n & Hin & Hcol).
    split; [exact Hne|]. exists n. split; [now right|exact Hcol].
Qed.


Lemma js_nonempty (s : string) : s <> EmptyString -> js s <> [].
Proof. destruct s; [congruence|discriminate]. Qed.

Lemma decimal_nonempty (n : Z) : NilZero.string_of_int (Z.to_int n) <> EmptyString.
Proof.
  assert (H : forall d, NilZero.string_of_uint d <> EmptyString)
    by (intros d; destruct d; discriminate).
  destruct (Z.to_int n); cbn; [apply H|discriminate].
Qed.

Lemma sourceIdOf_nonempty (row : RawRow) : sourceIdOf row <> [].
Proof.
  unfold sourceIdOf. destruct (rowId row) as [|n|[|c s]]; cbn [truthy];
    try discriminate.
  apply js_nonempty, decimal_nonempty.
Qed.

End MapperFacts.

Section MapperClaims.

(** X18. [transformRowToDocument] knows nine tables and throws for every
    other name; for a known table it returns a document that carries
    the name of that table, a source id that is not empty ("unknown"
    without a usable id) and a title that is absent or not empty. *)
Theorem transformRowToDocument_tables (tableName : str) (row : RawRow) :
  match transformRowToDocumentBy tableName row with
  | Ok doc =>
      In tableName
        (List.map js ["internal_data"; "press_release"; "board_members";
                      "partnerships"; "financial_reports"; "company_news";
                      "product_info"; "executive_team"; "investor_relations"]%string) /\
      source_table doc = tableName /\
      source_id doc <> [] /\
      title doc <> Some []
  | Throw =>
      ~ In tableName
        (List.map js ["internal_data"; "press_release"; "board_members";
                      "partnerships"; "financial_reports"; "company_news";
                      "product_info"; "executive_team"; "investor_relations"]%string)
  end.
Proof.
  assert (Htitle : forall names, firstTruthy row names <> Some []).
  { intros names H. now destruct (firstTruthy_nonempty row names [] H). }
  unfold transformRowToDocumentBy, TABLE_MAPPERS. cbn [mapperOf].
  repeat (let E := fresh "E" in
          case_bool_decide as E;
          [ subst tableName; split; [cbn [List.map In]; tauto|];
            split; [reflexivity|];
            split; [apply sourceIdOf_nonempty|apply Htitle]
          | ]).
  cbn [List.map In]. intuition congruence.
Qed.

End MapperClaims.

Section RowClaims.

Context {vector row world : Type} {B : Backend vector row world}.

Implicit Types (s : state vector world) (evs : list (event vector)).

(** X12. A row whose content is empty or white space only is skipped: no
    call is made, nothing is counted, and processRow returns normally. *)
Theorem processRow_blank_skipped mode tableName (r : row) s doc :
  transformRowToDocument tableName r = Ok doc ->
  trim (content doc) = [] ->
  processRow mode tableName r s = (Ok tt, s).
Proof.
  intros Etransform Eblank. unfold processRow, bind, lift.
  rewrite Etransform, Eblank. cbn [length Nat.eqb].
  now rewrite orb_true_r.
Qed.

(** X13. The chunk upserts of a row are called for the chunks of its
    content, each at its own position, from position 0 on and without a
    gap, under one document id; when processRow returns normally
    either no document and no chunk was upserted (the row was skipped)
    or the document and every chunk were. *)
Theorem processRow_chunk_positions mode tableName (r : row) s doc :
  transformRowToDocument tableName r = Ok doc ->
  exists evs documentId k,
    events (snd (processRow mode tableName r s)) = events s ++ evs /\
    upsertAttempts evs =
      indexed documentId 0 (firstn k (chunkText (content doc) 1200 200 800 1500)) /\
    (fst (processRow mode tableName r s) = Ok tt ->
     documentUpserts evs = [] /\ k = 0%nat \/
     documentUpserts evs = [doc] /\
     k = length (chunkText (content doc) 1200 200 800 1500)).
Proof.
  intros Etransform.
  destruct (processRow_outcome mode tableName r s) as (evs & Hacc & Hup).
  destruct (Hup doc Etransform) as (documentId & k & Hidx & Hok).
  exists evs, documentId, k. split; [apply Hacc|]. now split.
Qed.


(** X15. The batch loop keeps the statistics in step with the trace: it
    returns normally; the error counter grows by one for each reported
    row failure, of which there are no more than rows; [embeddingsWritten]
    grows by the number of provider calls that did not fail;
    [chunksCreated] and [documentsProcessed] never go down and grow by no
    more than the chunk upserts and the document upserts called. *)
Theorem processBatch_accounting mode tableName (rows : list row) s :
  exists s' evs,
    processBatch mode tableName rows s = (Ok tt, s') /\
    events s' = events s ++ evs /\
    errors (stats s') = (errors (stats s) + length (rowFailures evs))%nat /\
    (length (rowFailures evs) <= length rows)%nat /\
    (embeddingsWritten (stats s') + length (failedEmbeddings evs) =
     embeddingsWritten (stats s) + length (embeddedTexts evs))%nat /\
    (chunksCreated (stats s) <= chunksCreated (stats s')
     <= chunksCreated (stats s) + length (upsertAttempts evs))%nat /\
    (documentsProcessed (stats s) <= documentsProcessed (stats s')
     <= documentsProcessed (stats s) + length (documentUpserts evs))%nat.
Proof.
  destruct (processBatch_outcome mode tableName rows s)
    as (s' & evs & E & (Hev & Herr & Hemb & Hch & Hdoc) & Hn).
  exists s', evs. repeat split; (assumption || lia).
Qed.

End RowClaims.

Section MapperRows.

Context {vector world : Type} {B : Backend vector RawRow world}.


End MapperRows.

(** * The further properties at inputs *)

Module MoreRuns.
Import Memory Fixtures.

(** X2, at an input. *)
Lemma splitIntoSentences_trimmed_witness :
  js "Two!" <> [] /\
  (forall c, head (js "Two!") = Some c -> isSpace c = false) /\
  (forall c, last (js "Two!") = Some c -> isSpace c = false).
Proof.
  apply (splitIntoSentences_trimmed (js "One.  Two! ") (js "Two!")).
  vm_compute. right. left. reflexivity.
Defined.

(** X3, at an input: the full stop of a version number is no sentence end. *)
Lemma splitIntoSentences_one_sentence_witness :
  splitIntoSentences (js " v1.2 is out ") =
  (if (0 <? length (trim (js " v1.2 is out ")))%nat
   then [trim (js " v1.2 is out ")] else []).
Proof.
  apply (splitIntoSentences_one_sentence (js " v1.2 is out ")).
  reflexivity.
Defined.

(** X4, at an input. *)
Lemma getOverlapText_last_words_witness :
  getOverlapText (join space [js "one"; js "two"; js "three"]) 2 =
  join space (skipn (length [js "one"; js "two"; js "three"] - Z.to_nat 2)
                [js "one"; js "two"; js "three"]).
Proof.
  apply (getOverlapText_last_words [js "one"; js "two"; js "three"] 2).
  - repeat constructor; discriminate.
  - lia.
  - simpl. lia.
Defined.

(** X6, at an input. *)
Lemma addOverlap_prepends_witness :
  exists pre,
    addOverlap 1 [js "one two"; js "three"] !! 1%nat = Some (pre ++ js "three") /\
    (1%nat = 0%nat \/ 1 <= 0 -> pre = []) /\
    (pre = [] \/
     exists previous,
       [js "one two"; js "three"] !! (1 - 1)%nat = Some previous /\
       pre = getOverlapText previous 1 ++ space).
Proof.
  apply (addOverlap_prepends 1 [js "one two"; js "three"] 1 (js "three")).
  reflexivity.
Defined.


(** X11, at an input. *)
Lemma chunkText_keeps_sentences_witness :
  exists chunk,
    In chunk (chunkText (js "Hello you. Abcdefghijklmnop.") 10 0 5 12) /\
    occursIn (js "Hello you.") chunk.
Proof.
  apply (chunkText_keeps_sentences (js "Hello you. Abcdefghijklmnop.")
           10 0 5 12 (js "Hello you.")).
  - lia.
  - vm_compute. left. reflexivity.
Defined.

(** X12, at an input. *)
Lemma processRow_blank_skipped_witness :
  processRow (B := backend acceptsAll) ReembedAll (js "press_release")
    (Some blankNote) (start empty) = (Ok tt, start empty).
Proof.
  apply (processRow_blank_skipped (B := backend acceptsAll) ReembedAll
           (js "press_release") (Some blankNote) (start empty) blankNote).
  - reflexivity.
  - reflexivity.
Defined.

(** X13, at an input. *)
Lemma processRow_chunk_positions_witness :
  exists evs documentId k,
    events (snd (processRow (B := backend acceptsAll) ReembedNone
                   (js "press_release") (Some note) (start empty))) =
      events (start empty) ++ evs /\
    upsertAttempts evs =
      indexed documentId 0 (firstn k (chunkText (content note) 1200 200 800 1500)) /\
    (fst (processRow (B := backend acceptsAll) ReembedNone
            (js "press_release") (Some note) (start empty)) = Ok tt ->
     documentUpserts evs = [] /\ k = 0%nat \/
     documentUpserts evs = [note] /\
     k = length (chunkText (content note) 1200 200 800 1500)).
Proof.
  apply (processRow_chunk_positions (B := backend acceptsAll) ReembedNone
           (js "press_release") (Some note) (start empty) note).
  reflexivity.
Defined.


(** X17, at an input: three rows read in pages of two. *)
Lemma processTable_static_witness :
  processTable (B := backend acceptsAll)
    (R := windowSource [Some note; None; Some memo]) 4 ReembedNone
    (js "press_release") 2 0 (start empty) =
  (Ok true,
   snd (processBatch (B := backend acceptsAll) ReembedNone (js "press_release")
          (skipn 0 [Some note; None; Some memo])
          (Build_state (ext (start empty)) freshStats (events (start empty))))).
Proof.
  apply (processTable_static (B := backend acceptsAll)
           (R := windowSource [Some note; None; Some memo]) 4 ReembedNone
           (js "press_release") [Some note; None; Some memo] 2 0 (start empty)).
  - reflexivity.
  - lia.
  - simpl. lia.
Defined.

(** The three rows of that table: two documents, one row failure. *)
Example table_in_pages :
  stats (snd (processTable (B := backend acceptsAll)
                (R := windowSource [Some note; None; Some memo]) 4 ReembedNone
                (js "press_release") 2 0 (start empty))) =
  {| documentsProcessed := 2; chunksCreated := 2;
     embeddingsWritten := 2; errors := 1 |}.
Proof. vm_compute. reflexivity. Qed.


(** The mappers on rows: the first column that holds a text wins, and a
    row without an id gets the id "unknown". *)
Example mappers_ex :
  transformRowToDocumentBy (js "board_members")
    {| rowId := IdNumber 42;
       column := fun name =>
         if String.eqb name "title" then Some (js "Chair")
         else if String.eqb name "name" then Some (js "Ada")
         else if String.eqb name "background" then Some (js "Engineer.")
         else None |} =
  Ok {| source_table := js "board_members"; source_id := js "42";
        title := Some (js "Ada"); content := js "Engineer." |} /\
  transformRowToDocumentBy (js "press_release") bareRow =
  Ok {| source_table := js "press_release"; source_id := js "3";
        title := None; content := js "" |} /\
  transformRowToDocumentBy (js "invoices") bareRow = Throw /\
  source_id (press_release {| rowId := IdAbsent; column := fun _ => None |}) =
    js "unknown".
Proof. repeat split. Qed.

End MoreRuns.
